(** * UN-EX fusion simulator: the arithmetic of [app.py]

    The program is a Streamlit page.  Its computational content is the
    function [calculate_unex_diffusion] and the arithmetic that [main]
    performs on the slider readings: three diffusion coefficients, three
    confinement times and two comparisons.

    Python's [float] is IEEE 754 binary64 with round-to-nearest-even, which
    is exactly Rocq's primitive type [float]; the embedding therefore keeps
    rounding, overflow, signed zeros and NaN as the interpreter has them.
    Python exceptions are values of an error monad. *)

From Stdlib Require Import Floats ZArith Bool Lia Reals Lra Psatz.

Set Warnings "-inexact-float".

Local Open Scope float_scope.

(** ** Python runtime fragments used by the program *)

Module Py.

(** The exceptions the arithmetic of the program can raise. *)
Inductive exn : Set :=
| ZeroDivisionError
| OverflowError
| TypeError.

(** Outcome of evaluating an expression: a value, or a raised exception
    that propagates to the caller. *)
Inductive result (A : Type) : Type :=
| Ok (a : A)
| Raise (e : exn).

Arguments Ok {A} a.
Arguments Raise {A} e.

Definition bind {A B : Type} (c : result A) (k : A -> result B) : result B :=
  match c with
  | Ok a => k a
  | Raise e => Raise e
  end.

(** [a / b] on floats (CPython's [float_div]): a zero divisor, of either
    sign, raises; every other case is the IEEE quotient. *)
Definition float_truediv (a b : float) : result float :=
  if b =? 0 then Raise ZeroDivisionError else Ok (a / b).

(** The builtin [max(a, b)] on two positional arguments: the first
    argument is kept unless the second compares strictly greater. *)
Definition max (a b : float) : float :=
  if a <? b then b else a.

End Py.

Notation "x <- c ;; k" := (Py.bind c (fun x => k))
  (at level 61, c at next level, right associativity).

Import Py.

(** ** [calculate_unex_diffusion] *)

(** The floor of the diffusion coefficient, the literal [1e-4]. *)
Definition min_diffusion_floor : float := 1e-4.

(** The linear model before the floor is applied, given the quotient
    [T / B] already computed. *)
Definition linear_model (q E_harmonic S_local_adjusted
                         alpha_coeff beta_coeff gamma_coeff : float) : float :=
  (alpha_coeff * q) - (beta_coeff * E_harmonic) + (gamma_coeff * S_local_adjusted).

Definition calculate_unex_diffusion
    (T B E_harmonic S_local alpha_coeff beta_coeff gamma_coeff delta : float)
    : result float :=
  let S_local_adjusted := Py.max 0 S_local in
  q <- float_truediv T B ;;
  let diffusion_coefficient :=
    linear_model q E_harmonic S_local_adjusted alpha_coeff beta_coeff gamma_coeff in
  Ok (Py.max diffusion_coefficient min_diffusion_floor).


(** ** The arithmetic of [main] *)

(** Which of the two fixed messages a comparison displays: [st.success]
    ("... better than ...") or [st.info] ("... comparable to or worse
    than ..."). *)
Inductive banner : Set :=
| success
| info.

(** The numbers [main] computes and displays, under the names of its local
    variables, and the banner chosen by each comparison. *)
Record report : Set := {
  D_UNEX : float;
  tau_E_unex : float;
  D_Bohm : float;
  tau_E_bohm : float;
  D_Neoclassical : float;
  tau_E_neoclassical : float;
  bohm_banner : banner;
  neoclassical_banner : banner
}.

Section Main.

(** [x ** y] on floats is CPython's [float_pow], which wraps the C
    library's [pow]; neither is part of the repository.  It returns a float
    or raises ([OverflowError] when the result overflows).  For a negative
    finite base with a fractional exponent it returns a complex number
    instead: [main] then runs on and cannot complete, since the comparison
    with the Neoclassical time raises [TypeError] unless a division raises
    before it.  The model ends such a run at the power, with [TypeError]:
    it is exact on the runs whose powers are floats or raise, and on the
    fact that the other runs do not complete, but not on the statement that
    ends them. *)
Variable float_pow : float -> float -> result float.

(** CPython answers [1.0 ** w] itself, before calling [pow]: the result
    is [1.0] for every [w]. *)
Hypothesis float_pow_one : forall w, float_pow 1 w = Ok 1.

(** The expression [(a**2) / D], which [main] evaluates once per model. *)
Definition tau_E (a D : float) : result float :=
  a2 <- float_pow a 2 ;;
  float_truediv a2 D.

(** The test [tau_E_unex > tau_E_ref] and the message it selects. *)
Definition compare_banner (tau_E_unex tau_E_ref : float) : banner :=
  if tau_E_ref <? tau_E_unex then success else info.

Definition main
    (T B E_harmonic S_local alpha_coeff beta_coeff gamma_coeff delta : float)
    : result report :=
  D_UNEX <- calculate_unex_diffusion T B E_harmonic S_local
              alpha_coeff beta_coeff gamma_coeff delta ;;
  let a := 1 in
  tau_E_unex <- tau_E a D_UNEX ;;
  let scaling_factor_bohm := 1 in
  q <- float_truediv T B ;;
  let D_Bohm := scaling_factor_bohm * q in
  tau_E_bohm <- tau_E a D_Bohm ;;
  let scaling_factor_neoclassical := 0.1 in
  rT <- float_pow T 0.5 ;;
  B2 <- float_pow B 2 ;;
  r <- float_truediv rT B2 ;;
  let D_Neoclassical := scaling_factor_neoclassical * r in
  tau_E_neoclassical <- tau_E a D_Neoclassical ;;
  Ok {| D_UNEX := D_UNEX;
        tau_E_unex := tau_E_unex;
        D_Bohm := D_Bohm;
        tau_E_bohm := tau_E_bohm;
        D_Neoclassical := D_Neoclassical;
        tau_E_neoclassical := tau_E_neoclassical;
        bohm_banner := compare_banner tau_E_unex tau_E_bohm;
        neoclassical_banner := compare_banner tau_E_unex tau_E_neoclassical |}.

End Main.

(** A stand-in for [float_pow] on which [main] can be run at concrete
    arguments, for the two exponents the program uses: [x ** 2] as the
    rounded product [x * x], with CPython's [OverflowError] when a finite
    base overflows, and any other exponent as [x ** 0.5], the rounded
    square root, with CPython's special cases (an infinite base gives
    [inf], a zero gives [0.0], a negative finite base gives a complex
    number).  The C library's [pow] need not be correctly rounded, so this
    is CPython's power only up to the last bit; it is used at concrete
    arguments only, and no theorem about every [float_pow] depends on
    it. *)
Definition rounded_pow (x w : float) : result float :=
  if w =? 2 then
    if is_infinity (x * x) && negb (is_infinity x) then Raise OverflowError
    else Ok (x * x)
  else
    if is_infinity x then Ok infinity
    else if x <? 0 then Raise TypeError
    else if x =? 0 then Ok 0
    else Ok (PrimFloat.sqrt x).

Lemma rounded_pow_one (w : float) : rounded_pow 1 w = Ok 1.
Proof. unfold rounded_pow. destruct (w =? 2); reflexivity. Qed.

(** A float that is a number: it equals itself, which NaN does not. *)
Definition ordered (x : float) : Prop := (x =? x) = true.

(** The unclamped linear combination that [calculate_unex_diffusion]
    evaluates before applying the floor. *)
Definition raw_diffusion
    (T B E_harmonic S_local alpha_coeff beta_coeff gamma_coeff : float) : float :=
  linear_model (T / B) E_harmonic (Py.max 0 S_local)
    alpha_coeff beta_coeff gamma_coeff.

(** ** The sliders of [main] *)

(** [lo <= x <= hi]. *)
Definition within (lo hi x : float) : Prop :=
  (lo <=? x) = true /\ (x <=? hi) = true.

(** The numeric arguments of a call [st.slider(label, min_value=...,
    max_value=..., value=..., step=...)]; the label, the help text and the
    display format are left out. *)
Record slider : Set := {
  min_value : float;
  max_value : float;
  value : float;
  step : float
}.

(** The eight sliders, under the names of the variables they are read
    into. *)
Definition T_slider : slider :=
  {| min_value := 1; max_value := 50; value := 10; step := 0.5 |}.
Definition B_slider : slider :=
  {| min_value := 0.5; max_value := 20; value := 5; step := 0.1 |}.
Definition E_harmonic_slider : slider :=
  {| min_value := 0; max_value := 10; value := 1; step := 0.1 |}.
Definition S_local_slider : slider :=
  {| min_value := 0; max_value := 1; value := 0.50; step := 0.01 |}.
Definition alpha_coeff_slider : slider :=
  {| min_value := 0.1; max_value := 10; value := 1; step := 0.1 |}.
Definition beta_coeff_slider : slider :=
  {| min_value := 0; max_value := 5; value := 1; step := 0.1 |}.
Definition gamma_coeff_slider : slider :=
  {| min_value := 0; max_value := 5; value := 1; step := 0.1 |}.
Definition delta_slider : slider :=
  {| min_value := 0.001; max_value := 0.1; value := 0.01; step := 0.001 |}.

(** What Streamlit returns for a slider: a float between its [min_value]
    and its [max_value]. *)
Definition reading (s : slider) (x : float) : Prop :=
  within (min_value s) (max_value s) x.

(** ** Binary64 rounding is monotone

    The primitive operations are specified by [SpecFloat]: each one rounds
    the exact result to nearest-even.  This part proves, from that
    specification, that rounding preserves the order of the exact values,
    and with it that addition, subtraction, multiplication and division are
    monotone on floats. *)

Section Rounding.

Local Open Scope Z_scope.

(** *** Powers of two as reals *)

Definition p2 (e : Z) : R := powerRZ 2 e.

Lemma p2_pos (e : Z) : (0 < p2 e)%R.
Proof. apply powerRZ_lt. lra. Qed.

Lemma p2_add (a b : Z) : p2 (a + b) = (p2 a * p2 b)%R.
Proof. apply powerRZ_add. lra. Qed.

Lemma p2_0 : p2 0 = 1%R.
Proof. reflexivity. Qed.

Lemma p2_1 : p2 1 = 2%R.
Proof. apply powerRZ_1. Qed.

Lemma p2_opp (a : Z) : p2 (- a) = (/ p2 a)%R.
Proof. apply powerRZ_neg'. Qed.

Lemma p2_IZR (n : Z) : 0 <= n -> p2 n = IZR (2 ^ n).
Proof.
  intros Hn. unfold p2. destruct n as [ | p | p]; [reflexivity | | lia].
  cbn [powerRZ]. rewrite pow_IZR, positive_nat_Z. reflexivity.
Qed.

Lemma p2_ge_1 (n : Z) : 0 <= n -> (1 <= p2 n)%R.
Proof.
  intros Hn. rewrite (p2_IZR n Hn). apply IZR_le.
  assert (0 < 2 ^ n) by (apply Z.pow_pos_nonneg; lia). lia.
Qed.

Lemma p2_le (a b : Z) : a <= b -> (p2 a <= p2 b)%R.
Proof.
  intros H. replace b with (a + (b - a)) by lia. rewrite p2_add.
  pose proof (p2_pos a). pose proof (p2_ge_1 (b - a) ltac:(lia)). nra.
Qed.

Lemma p2_lt (a b : Z) : a < b -> (p2 a < p2 b)%R.
Proof.
  intros H. replace b with (a + 1 + (b - a - 1)) by lia. rewrite !p2_add.
  pose proof (p2_pos a). pose proof (p2_ge_1 (b - a - 1) ltac:(lia)).
  rewrite p2_1. nra.
Qed.

Lemma p2_lt_inv (a b : Z) : (p2 a < p2 b)%R -> a < b.
Proof.
  intros H. destruct (Z_lt_le_dec a b) as [L | L]; [exact L | ].
  apply p2_le in L. lra.
Qed.

(** *** Locations *)

(** [located u m l]: the non-negative real [u] lies in [[m, m+1)], at the
    place the location [l] says. *)
Definition located (u : R) (m : Z) (l : location) : Prop :=
  match l with
  | loc_Exact => u = IZR m
  | loc_Inexact Lt => (IZR m < u < IZR m + / 2)%R
  | loc_Inexact Eq => u = (IZR m + / 2)%R
  | loc_Inexact Gt => (IZR m + / 2 < u < IZR m + 1)%R
  end.

Lemma located_bounds (u : R) (m : Z) (l : location) :
  located u m l -> (IZR m <= u < IZR m + 1)%R.
Proof. destruct l as [ | [ | | ]]; unfold located; lra. Qed.

Lemma IZR_xO (p : positive) : IZR (Zpos p~0) = (2 * IZR (Zpos p))%R.
Proof. change (Zpos p~0) with (2 * Zpos p). now rewrite mult_IZR. Qed.

Lemma IZR_xI (p : positive) : IZR (Zpos p~1) = (2 * IZR (Zpos p) + 1)%R.
Proof.
  change (Zpos p~1) with (2 * Zpos p + 1). now rewrite plus_IZR, mult_IZR.
Qed.

Definition rec_located (u : R) (mrs : shr_record) : Prop :=
  0 <= shr_m mrs /\ located u (shr_m mrs) (loc_of_shr_record mrs).

Lemma shr_record_of_loc_located (u : R) (m : Z) (l : location) :
  0 <= m -> located u m l -> rec_located u (shr_record_of_loc m l).
Proof.
  intros Hm H. unfold rec_located.
  destruct l as [ | [ | | ]];
    cbn [shr_record_of_loc shr_m loc_of_shr_record]; auto.
Qed.

Lemma shr_1_located (u : R) (mrs : shr_record) :
  rec_located u mrs -> rec_located (u / 2) (shr_1 mrs).
Proof.
  unfold rec_located. destruct mrs as [m r s]. cbn [shr_m].
  intros [Hm H].
  destruct m as [ | [p | p | ] | p]; [ | | | | lia];
    destruct r, s;
    cbn [shr_1 shr_m loc_of_shr_record located orb] in H |- *;
    try rewrite (IZR_xO p) in H; try rewrite (IZR_xI p) in H;
    (split; [lia | lra]).
Qed.

Lemma iter_shr_1_located (p : positive) :
  forall (u : R) (mrs : shr_record),
    rec_located u mrs ->
    rec_located (u / p2 (Zpos p)) (SpecFloat.iter_pos shr_1 p mrs).
Proof.
  induction p as [p IH | p IH | ]; intros u mrs H; cbn [SpecFloat.iter_pos].
  - apply shr_1_located in H. apply IH in H. apply IH in H.
    replace (u / p2 (Zpos p~1))%R with (u / 2 / p2 (Zpos p) / p2 (Zpos p))%R;
      [exact H | ].
    replace (Zpos p~1) with (Zpos p + Zpos p + 1) by lia. rewrite !p2_add, p2_1.
    pose proof (p2_pos (Zpos p)). field. lra.
  - apply IH in H. apply IH in H.
    replace (u / p2 (Zpos p~0))%R with (u / p2 (Zpos p) / p2 (Zpos p))%R;
      [exact H | ].
    replace (Zpos p~0) with (Zpos p + Zpos p) by lia. rewrite !p2_add.
    pose proof (p2_pos (Zpos p)). field. lra.
  - rewrite p2_1. now apply shr_1_located.
Qed.

Lemma shr_located (u : R) (m : Z) (l : location) (e n : Z) :
  0 <= m -> located u m l -> 0 <= n ->
  exists mrs, shr (shr_record_of_loc m l) e n = (mrs, e + n)
              /\ rec_located (u / p2 n) mrs.
Proof.
  intros Hm H Hn. pose proof (shr_record_of_loc_located u m l Hm H) as R0.
  destruct n as [ | p | p]; [ | | lia].
  - eexists. split; [cbn; f_equal; lia | ]. rewrite p2_0.
    replace (u / 1)%R with u by lra. exact R0.
  - eexists. split; [reflexivity | ]. now apply iter_shr_1_located.
Qed.

(** *** Digits *)

Lemma digits2_pos_bounds (p : positive) :
  2 ^ (Zpos (digits2_pos p) - 1) <= Zpos p < 2 ^ Zpos (digits2_pos p).
Proof.
  induction p as [p IH | p IH | ]; cbn [digits2_pos];
    rewrite ?Pos2Z.inj_succ.
  - replace (Z.succ (Zpos (digits2_pos p)) - 1) with (Z.succ (Zpos (digits2_pos p) - 1)) by lia.
    rewrite !Z.pow_succ_r by lia. lia.
  - replace (Z.succ (Zpos (digits2_pos p)) - 1) with (Z.succ (Zpos (digits2_pos p) - 1)) by lia.
    rewrite !Z.pow_succ_r by lia. lia.
  - cbn. lia.
Qed.

(** *** Rounding to nearest, ties to even *)

Lemma rne_bounds (m : Z) (l : location) :
  m <= round_nearest_even m l <= m + 1.
Proof.
  destruct l as [ | [ | | ]]; cbn [round_nearest_even];
    try destruct (Z.even m); lia.
Qed.

Lemma rne_mono (u u' : R) (m m' : Z) (l l' : location) :
  located u m l -> located u' m' l' -> (u <= u')%R ->
  round_nearest_even m l <= round_nearest_even m' l'.
Proof.
  intros H H' Hu.
  pose proof (located_bounds _ _ _ H) as B.
  pose proof (located_bounds _ _ _ H') as B'.
  assert (Hm : m < m' + 1).
  { apply lt_IZR. rewrite plus_IZR. lra. }
  destruct (Z.eq_dec m m') as [-> | Hne].
  - destruct l as [ | [ | | ]], l' as [ | [ | | ]];
      unfold located in H, H'; cbn [round_nearest_even];
      try (exfalso; lra); try destruct (Z.even m'); lia.
  - pose proof (rne_bounds m l). pose proof (rne_bounds m' l'). lia.
Qed.

(** *** The second half of [binary_round_aux] *)

Definition bemin : Z := -1074.

Lemma fexp_eq (k : Z) : fexp prec emax k = Z.max (k - 53) bemin.
Proof. reflexivity. Qed.

Definition finish (s : bool) (m2 f : Z) : spec_float :=
  let '(mrs, e) := shr_fexp prec emax m2 f loc_Exact in
  match shr_m mrs with
  | Z0 => S754_zero s
  | Zpos m => if e <=? emax - prec then S754_finite s m e else S754_infinity s
  | Zneg _ => S754_nan
  end.

Lemma binary_round_aux_finish (s : bool) (m e : Z) (l : location) :
  binary_round_aux prec emax s m e l
  = let '(mrs, e') := shr_fexp prec emax m e l in
    finish s (round_nearest_even (shr_m mrs) (loc_of_shr_record mrs)) e'.
Proof. reflexivity. Qed.

(** The value a rounded mantissa [m2] at exponent [f] stands for once the
    carry is absorbed. *)
Definition packed (s : bool) (m2 f : Z) : spec_float :=
  match m2 with
  | Zpos p => if f <=? 971 then S754_finite s p f else S754_infinity s
  | _ => S754_zero s
  end.

Lemma finish_zero (s : bool) (f : Z) :
  bemin <= f -> finish s 0 f = S754_zero s.
Proof.
  intros Hf. unfold finish, shr_fexp, shr. cbn [Zdigits2].
  rewrite fexp_eq. unfold bemin in *.
  destruct (Z.max (0 + f - 53) (-1074) - f) eqn:E; try reflexivity. lia.
Qed.

Lemma finish_small (s : bool) (p : positive) (f : Z) :
  Zpos p < 2 ^ 53 -> bemin <= f -> finish s (Zpos p) f = packed s (Zpos p) f.
Proof.
  intros Hp Hf. unfold finish, shr_fexp, shr. cbn [Zdigits2].
  rewrite fexp_eq. unfold bemin in *.
  pose proof (digits2_pos_bounds p) as [L _].
  assert (Hd : Zpos (digits2_pos p) <= 53).
  { destruct (Z_le_gt_dec (Zpos (digits2_pos p)) 53) as [ | G]; [assumption | ].
    assert (2 ^ 53 <= 2 ^ (Zpos (digits2_pos p) - 1))
      by (apply Z.pow_le_mono_r; lia). lia. }
  destruct (Z.max (Zpos (digits2_pos p) + f - 53) (-1074) - f) eqn:E;
    try reflexivity. lia.
Qed.

Lemma finish_carry (s : bool) (f : Z) :
  bemin <= f -> finish s (2 ^ 53) f = packed s (2 ^ 52) (f + 1).
Proof.
  intros Hf. unfold finish, shr_fexp.
  change (Zdigits2 (2 ^ 53)) with 54. rewrite fexp_eq. unfold bemin in *.
  replace (Z.max (54 + f - 53) (-1074) - f) with 1 by lia.
  reflexivity.
Qed.

Definition result_of (s : bool) (m2 f : Z) : spec_float :=
  if m2 =? 2 ^ 53 then packed s (2 ^ 52) (f + 1) else packed s m2 f.

Lemma finish_result_of (s : bool) (m2 f : Z) :
  0 <= m2 <= 2 ^ 53 -> bemin <= f -> finish s m2 f = result_of s m2 f.
Proof.
  intros Hm Hf. unfold result_of.
  destruct (Z.eqb_spec m2 (2 ^ 53)) as [-> | Hne].
  - now apply finish_carry.
  - destruct m2 as [ | p | p]; [now apply finish_zero | | lia].
    apply finish_small; [lia | assumption].
Qed.

(** *** Magnitude of a located number *)

Lemma located_magnitude (u : R) (m : Z) (l : location) :
  0 <= m -> located u m l ->
  (u < p2 (Zdigits2 m))%R /\ (0 < m -> (p2 (Zdigits2 m - 1) <= u)%R).
Proof.
  intros Hm H. apply located_bounds in H.
  destruct m as [ | p | p]; [ | | lia].
  - cbn [Zdigits2]. rewrite p2_0. split; [lra | lia].
  - cbn [Zdigits2]. pose proof (digits2_pos_bounds p) as [L U].
    rewrite (p2_IZR (Zpos (digits2_pos p))) by lia.
    rewrite (p2_IZR (Zpos (digits2_pos p) - 1)) by lia.
    split.
    + assert (IZR (Zpos p + 1) <= IZR (2 ^ Zpos (digits2_pos p)))%R
        by (apply IZR_le; lia).
      rewrite plus_IZR in *. lra.
    + intros _. apply IZR_le in L. lra.
Qed.

Lemma shr_fexp_spec (x : R) (m e : Z) (l : location) :
  0 <= m -> located (x * p2 (- e)) m l ->
  e <= fexp prec emax (Zdigits2 m + e) ->
  exists mrs,
    shr_fexp prec emax m e l = (mrs, fexp prec emax (Zdigits2 m + e))
    /\ rec_located (x * p2 (- fexp prec emax (Zdigits2 m + e))) mrs.
Proof.
  intros Hm H He. set (f := fexp prec emax (Zdigits2 m + e)) in *.
  destruct (shr_located _ m l e (f - e) Hm H ltac:(lia)) as [mrs [E R0]].
  exists mrs. split.
  - unfold shr_fexp. fold f. rewrite E. f_equal. lia.
  - replace (x * p2 (- f))%R with (x * p2 (- e) / p2 (f - e))%R; [exact R0 | ].
    replace (- f) with (- e + - (f - e)) by lia.
    rewrite p2_add, (p2_opp (f - e)). unfold Rdiv. ring.
Qed.

(** *** What [binary_round_aux] returns *)

(** [rounds x s z]: [z] is the float of sign [s] obtained by rounding
    the non-negative real [x]: for the exponent [f] that the magnitude of
    [x] selects, [x / 2^f] is located at [(m1, l1)] and [z] packs the
    mantissa [m1] rounded to nearest-even. *)
Definition rounds (x : R) (s : bool) (z : spec_float) : Prop :=
  exists (f m1 : Z) (l1 : location),
    bemin <= f
    /\ located (x * p2 (- f)) m1 l1
    /\ 0 <= m1 < 2 ^ 53
    /\ (bemin < f -> 2 ^ 52 <= m1)
    /\ (x < p2 (f + 53))%R
    /\ (bemin < f -> (p2 (f + 52) <= x)%R)
    /\ z = result_of s (round_nearest_even m1 l1) f.

Lemma binary_round_aux_rounds (s : bool) (x : R) (m e : Z) (l : location) :
  0 <= m -> located (x * p2 (- e)) m l ->
  e <= fexp prec emax (Zdigits2 m + e) ->
  rounds x s (binary_round_aux prec emax s m e l).
Proof.
  intros Hm H He.
  destruct (shr_fexp_spec x m e l Hm H He) as [mrs [E [Hm1 Hl1]]].
  destruct (located_magnitude _ m l Hm H) as [U L].
  set (d := Zdigits2 m) in *. set (f := fexp prec emax (d + e)) in *.
  assert (Hf : f = Z.max (d + e - 53) bemin) by apply fexp_eq.
  assert (Hd : 0 <= d).
  { unfold d. destruct m; cbn [Zdigits2]; lia. }
  assert (Hx : x = (x * p2 (- e) * p2 e)%R).
  { rewrite Rmult_assoc, <- p2_add. replace (- e + e) with 0 by lia.
    rewrite p2_0. lra. }
  assert (Ux : (x < p2 (f + 53))%R).
  { rewrite Hx. apply Rlt_le_trans with (p2 d * p2 e)%R.
    - pose proof (p2_pos e). nra.
    - rewrite <- p2_add. apply p2_le. unfold bemin in *. lia. }
  assert (Lx : bemin < f -> (p2 (f + 52) <= x)%R).
  { intros Hlt. assert (0 < m).
    { destruct m as [ | p | p]; [ | lia | lia].
      unfold d in Hf. cbn [Zdigits2] in Hf. unfold bemin in *. lia. }
    specialize (L H0). rewrite Hx.
    apply Rle_trans with (p2 (d - 1) * p2 e)%R.
    - rewrite <- p2_add. apply p2_le. unfold bemin in *. lia.
    - pose proof (p2_pos e). nra. }
  assert (B := located_bounds _ _ _ Hl1).
  set (m1 := shr_m mrs) in *.
  assert (Hm1u : m1 < 2 ^ 53).
  { apply lt_IZR. rewrite <- (p2_IZR 53) by lia.
    apply Rle_lt_trans with (x * p2 (- f))%R; [lra | ].
    replace 53 with (f + 53 + - f) by lia. rewrite p2_add.
    pose proof (p2_pos (- f)). nra. }
  assert (Hm1l : bemin < f -> 2 ^ 52 <= m1).
  { intros Hlt. specialize (Lx Hlt).
    assert (2 ^ 52 < m1 + 1); [ | lia].
    apply lt_IZR. rewrite plus_IZR, <- (p2_IZR 52) by lia.
    apply Rle_lt_trans with (x * p2 (- f))%R; [ | lra].
    replace 52 with (f + 52 + - f) by lia. rewrite p2_add.
    pose proof (p2_pos (- f)). nra. }
  exists f, m1, (loc_of_shr_record mrs).
  assert (Hfm : bemin <= f) by lia.
  repeat (split; [assumption || lia | ]).
  rewrite binary_round_aux_finish, E.
  apply finish_result_of; [ | assumption].
  pose proof (rne_bounds m1 (loc_of_shr_record mrs)). lia.
Qed.

(** *** Rounding is monotone *)

Lemma packed_le (M F M' F' : Z) :
  0 <= M -> 0 <= M' ->
  M = 0 \/ (0 < M' /\ (F < F' \/ (F = F' /\ M <= M'))) ->
  SFleb (packed false M F) (packed false M' F') = true.
Proof.
  intros HM HM' H.
  destruct M as [ | p | p]; [ | | lia].
  - unfold packed. destruct M' as [ | p' | p']; try reflexivity.
    destruct (F' <=? 971); reflexivity.
  - destruct H as [H | [Hp H]]; [lia | ].
    destruct M' as [ | p' | p']; [lia | | lia].
    unfold packed.
    destruct (Z.leb_spec F 971), (Z.leb_spec F' 971);
      try reflexivity; [ | lia].
    unfold SFleb, SFcompare.
    change (Pos.compare_cont Eq p p') with (Pos.compare p p').
    destruct (Z.compare_spec F F'); try reflexivity; [ | lia].
    destruct (Pos.compare_spec p p'); try reflexivity. lia.
Qed.

Lemma result_of_le (m2 f m2' f' : Z) :
  0 <= m2 <= 2 ^ 53 -> 0 <= m2' <= 2 ^ 53 ->
  (bemin < f' -> 2 ^ 52 <= m2') ->
  bemin <= f ->
  f < f' \/ (f = f' /\ m2 <= m2') ->
  SFleb (result_of false m2 f) (result_of false m2' f') = true.
Proof.
  intros Hm Hm' Hn Hf H. unfold result_of.
  destruct (Z.eqb_spec m2 (2 ^ 53)), (Z.eqb_spec m2' (2 ^ 53));
    apply packed_le; lia.
Qed.

Lemma rounds_mono (x x' : R) (z z' : spec_float) :
  rounds x false z -> rounds x' false z' -> (x <= x')%R ->
  SFleb z z' = true.
Proof.
  intros (f & m1 & l1 & Hf & Hl & Hm & Hn & Ux & Lx & ->)
         (f' & m1' & l1' & Hf' & Hl' & Hm' & Hn' & Ux' & Lx' & ->) Hx.
  assert (Hff : f <= f').
  { destruct (Z.eq_dec f bemin) as [-> | Hne]; [assumption | ].
    assert (f + 52 < f' + 53); [ | lia].
    apply p2_lt_inv. specialize (Lx ltac:(lia)). lra. }
  pose proof (rne_bounds m1 l1). pose proof (rne_bounds m1' l1').
  apply result_of_le; try lia.
  destruct (Z.eq_dec f f') as [<- | Hne]; [right | left; lia].
  split; [reflexivity | ].
  apply (rne_mono (x * p2 (- f)) (x' * p2 (- f))); try assumption.
  pose proof (p2_pos (- f)). nra.
Qed.

(** *** Signs *)

Lemma SFcompare_swap (x y : spec_float) :
  SFcompare y x = option_map CompOpp (SFcompare x y).
Proof.
  destruct x as [sx | sx | | sx mx ex], y as [sy | sy | | sy my ey];
    simpl; try reflexivity;
    try (destruct sx; reflexivity);
    try (destruct sy; reflexivity);
    try (destruct sx, sy; reflexivity).
  change (Pos.compare_cont Eq my mx) with (Pos.compare my mx).
  change (Pos.compare_cont Eq mx my) with (Pos.compare mx my).
  rewrite (Z.compare_antisym ex ey), (Pos.compare_antisym mx my).
  destruct sx, sy, (Z.compare ex ey), (Pos.compare mx my); reflexivity.
Qed.

Lemma SFleb_opp (a b : spec_float) :
  SFleb (SFopp a) (SFopp b) = SFleb b a.
Proof.
  unfold SFleb. rewrite (SFcompare_swap a b).
  destruct a as [sa | sa | | sa ma ea], b as [sb | sb | | sb mb eb];
    try reflexivity;
    try (destruct sa; reflexivity);
    try (destruct sb; reflexivity);
    try (destruct sa, sb; reflexivity).
  cbn [SFopp SFcompare option_map].
  change (Pos.compare_cont Eq ma mb) with (Pos.compare ma mb).
  destruct sa, sb, (Z.compare ea eb), (Pos.compare ma mb); reflexivity.
Qed.

Lemma result_of_opp (s : bool) (m f : Z) :
  result_of (negb s) m f = SFopp (result_of s m f).
Proof.
  unfold result_of, packed.
  destruct (m =? 2 ^ 53).
  - change (2 ^ 52) with 4503599627370496.
    cbv iota. destruct (f + 1 <=? 971); reflexivity.
  - destruct m; try reflexivity. destruct (f <=? 971); reflexivity.
Qed.

Lemma rounds_opp (x : R) (s : bool) (z : spec_float) :
  rounds x s z -> rounds x (negb s) (SFopp z).
Proof.
  intros (f & m1 & l1 & Hf & Hl & Hm & Hn & Ux & Lx & ->).
  exists f, m1, l1. repeat (split; [assumption | ]).
  symmetry. apply result_of_opp.
Qed.

(** The sign class of a float: not NaN, and not above (below) zero. *)
Definition nonneg (z : spec_float) : Prop :=
  match z with
  | S754_zero _ => True
  | S754_infinity s | S754_finite s _ _ => s = false
  | S754_nan => False
  end.

Definition nonpos (z : spec_float) : Prop :=
  match z with
  | S754_zero _ => True
  | S754_infinity s | S754_finite s _ _ => s = true
  | S754_nan => False
  end.

Lemma nonpos_le_nonneg (a b : spec_float) :
  nonpos a -> nonneg b -> SFleb a b = true.
Proof.
  destruct a as [sa | sa | | sa ma ea], b as [sb | sb | | sb mb eb];
    cbn [nonpos nonneg]; intros Ha Hb; subst; try contradiction;
    try reflexivity; destruct sa; reflexivity || (destruct sb; reflexivity).
Qed.

Lemma result_of_sign (m f : Z) :
  nonneg (result_of false m f) /\ nonpos (result_of true m f).
Proof.
  unfold result_of, packed. destruct (m =? 2 ^ 53).
  - change (2 ^ 52) with 4503599627370496. cbv iota.
    destruct (f + 1 <=? 971); cbn; auto.
  - destruct m; cbn [nonneg nonpos]; auto; destruct (f <=? 971); cbn; auto.
Qed.

Lemma rounds_nonneg (x : R) (z : spec_float) : rounds x false z -> nonneg z.
Proof.
  intros (f & m1 & l1 & _ & _ & _ & _ & _ & _ & ->). apply result_of_sign.
Qed.

Lemma rounds_nonpos (x : R) (z : spec_float) : rounds x true z -> nonpos z.
Proof.
  intros (f & m1 & l1 & _ & _ & _ & _ & _ & _ & ->). apply result_of_sign.
Qed.

(** *** Rounding of a signed real *)

Definition Rnd (x : R) (z : spec_float) : Prop :=
  ((0 < x)%R /\ rounds x false z)
  \/ ((x < 0)%R /\ rounds (- x) true z)
  \/ (x = 0%R /\ exists s, z = S754_zero s).

Lemma Rnd_sign (x : R) (z : spec_float) :
  Rnd x z -> ((0 <= x)%R -> nonneg z) /\ ((x <= 0)%R -> nonpos z).
Proof.
  intros [[Hx H] | [[Hx H] | [Hx [s ->]]]].
  - split; intros; [now apply rounds_nonneg in H | lra].
  - split; intros; [lra | now apply rounds_nonpos in H].
  - split; intros; exact I.
Qed.

Theorem Rnd_mono (x x' : R) (z z' : spec_float) :
  Rnd x z -> Rnd x' z' -> (x <= x')%R -> SFleb z z' = true.
Proof.
  intros H H' Hx.
  destruct (Rle_lt_dec x 0) as [Hx0 | Hx0].
  - destruct (Rle_lt_dec 0 x') as [Hx0' | Hx0'].
    + apply nonpos_le_nonneg.
      * now apply (Rnd_sign x z H).
      * now apply (Rnd_sign x' z' H').
    + destruct H as [[? _] | [[_ H] | [? _]]]; [lra | | lra].
      destruct H' as [[? _] | [[_ H'] | [? _]]]; [lra | | lra].
      apply rounds_opp in H, H'. cbn [negb] in H, H'.
      rewrite <- SFleb_opp. apply (rounds_mono (- x') (- x)); try assumption.
      lra.
  - destruct H as [[_ H] | [[? _] | [? _]]]; [ | lra | lra].
    destruct H' as [[_ H'] | [[? _] | [? _]]]; [ | lra | lra].
    now apply (rounds_mono x x').
Qed.

(** *** The real value of a float *)

Definition SF2R (z : spec_float) : R :=
  match z with
  | S754_finite s m e =>
      if s then (- (IZR (Zpos m) * p2 e))%R else (IZR (Zpos m) * p2 e)%R
  | _ => 0%R
  end.

Definition is_real (z : spec_float) : Prop :=
  match z with
  | S754_zero _ | S754_finite _ _ _ => True
  | _ => False
  end.

Definition valid (z : spec_float) : Prop :=
  SpecFloat.valid_binary prec emax z = true.

Lemma finite_pos_val (m : positive) (e : Z) : (0 < IZR (Zpos m) * p2 e)%R.
Proof.
  apply Rmult_lt_0_compat; [apply IZR_lt; lia | apply p2_pos].
Qed.

(** What validity says of a finite float. *)
Lemma valid_finite_inv (s : bool) (m : positive) (e : Z) :
  valid (S754_finite s m e) ->
  bemin <= e <= 971
  /\ Zpos m < 2 ^ 53
  /\ (bemin < e -> 2 ^ 52 <= Zpos m)
  /\ fexp prec emax (Zpos (digits2_pos m) + e) = e.
Proof.
  unfold valid, SpecFloat.valid_binary, bounded, canonical_mantissa.
  intros H. apply andb_prop in H as [H1 H2].
  apply Z.eqb_eq in H1. apply Z.leb_le in H2.
  change (emax - prec) with 971 in H2.
  pose proof H1 as H3. rewrite fexp_eq in H1. unfold bemin in *.
  pose proof (digits2_pos_bounds m) as [L U].
  assert (Hd : Zpos (digits2_pos m) <= 53) by lia.
  repeat split; try lia; try assumption.
  - assert (2 ^ Zpos (digits2_pos m) <= 2 ^ 53)
      by (apply Z.pow_le_mono_r; lia). lia.
  - intros He. assert (Zpos (digits2_pos m) = 53) by lia.
    replace (Zpos (digits2_pos m) - 1) with 52 in L by lia. exact L.
Qed.

(** A valid finite float is the rounding of (the absolute value of) its
    own value. *)
Lemma valid_rounds (s : bool) (m : positive) (e : Z) :
  valid (S754_finite s m e) ->
  rounds (IZR (Zpos m) * p2 e) s (S754_finite s m e).
Proof.
  intros H. apply valid_finite_inv in H as (He & Hm & Hn & _).
  exists e, (Zpos m), loc_Exact.
  split; [lia | ]. split.
  - unfold located. rewrite Rmult_assoc, <- p2_add.
    replace (e + - e) with 0 by lia. rewrite p2_0. lra.
  - split; [lia | ]. split; [assumption | ]. split; [ | split].
    + replace (e + 53) with (53 + e) by lia. rewrite p2_add.
      rewrite (p2_IZR 53) by lia. pose proof (p2_pos e).
      apply Rmult_lt_compat_r; [assumption | apply IZR_lt; assumption].
    + intros Hlt. replace (e + 52) with (52 + e) by lia. rewrite p2_add.
      rewrite (p2_IZR 52) by lia. pose proof (p2_pos e).
      apply Rmult_le_compat_r; [lra | apply IZR_le; auto].
    + cbn [round_nearest_even]. unfold result_of.
      destruct (Z.eqb_spec (Zpos m) (2 ^ 53)) as [E | _]; [lia | ].
      unfold packed. destruct (Z.leb_spec e 971); [reflexivity | lia].
Qed.

Lemma valid_Rnd (z : spec_float) : valid z -> is_real z -> Rnd (SF2R z) z.
Proof.
  destruct z as [s | s | | s m e]; cbn [is_real]; try contradiction;
    intros Hv _.
  - right. right. split; [reflexivity | eauto].
  - pose proof (finite_pos_val m e). pose proof (valid_rounds s m e Hv).
    cbn [SF2R]. destruct s.
    + right. left. split; [lra | ].
      now replace (- - (IZR (Zpos m) * p2 e))%R with (IZR (Zpos m) * p2 e)%R
        by lra.
    + left. now split.
Qed.

(** The order of the floats is the order of their values. *)
Lemma SFcompare_Eq_val (x y : spec_float) :
  is_real x -> is_real y -> SFcompare x y = Some Eq -> SF2R x = SF2R y.
Proof.
  destruct x as [sx | sx | | sx mx ex], y as [sy | sy | | sy my ey];
    cbn [is_real]; try contradiction; intros _ _; cbn [SFcompare SF2R].
  - reflexivity.
  - destruct sy; discriminate.
  - destruct sx; discriminate.
  - change (Pos.compare_cont Eq mx my) with (Pos.compare mx my).
    destruct sx, sy; try discriminate;
      destruct (Z.compare_spec ex ey); try discriminate;
      destruct (Pos.compare_spec mx my); try discriminate;
      intros _; subst; reflexivity.
Qed.

Lemma SFleb_val (x y : spec_float) :
  valid x -> valid y -> is_real x -> is_real y ->
  SFleb x y = true -> (SF2R x <= SF2R y)%R.
Proof.
  intros Vx Vy Rx Ry H.
  destruct (Rle_lt_dec (SF2R x) (SF2R y)) as [L | L]; [exact L | ].
  assert (H' : SFleb y x = true).
  { apply (Rnd_mono (SF2R y) (SF2R x)); try (now apply valid_Rnd). lra. }
  assert (E : SFcompare x y = Some Eq).
  { revert H H'. unfold SFleb. rewrite (SFcompare_swap x y).
    destruct (SFcompare x y) as [[ | | ] | ]; cbn; congruence. }
  apply SFcompare_Eq_val in E; try assumption. lra.
Qed.

Lemma val_SFleb (x y : spec_float) :
  valid x -> valid y -> is_real x -> is_real y ->
  (SF2R x <= SF2R y)%R -> SFleb x y = true.
Proof.
  intros Vx Vy Rx Ry H.
  apply (Rnd_mono (SF2R x) (SF2R y)); try (now apply valid_Rnd). exact H.
Qed.

(** *** Multiplication *)

Lemma digits2_pos_mul (p q : positive) :
  Zpos (digits2_pos p) + Zpos (digits2_pos q) - 1
  <= Zpos (digits2_pos (p * q)).
Proof.
  pose proof (digits2_pos_bounds p) as [Lp _].
  pose proof (digits2_pos_bounds q) as [Lq _].
  pose proof (digits2_pos_bounds (p * q)) as [_ U].
  set (dp := Zpos (digits2_pos p)) in *. set (dq := Zpos (digits2_pos q)) in *.
  set (d := Zpos (digits2_pos (p * q))) in *.
  assert (0 < dp) by (unfold dp; lia). assert (0 < dq) by (unfold dq; lia).
  assert (H2 : 2 ^ (dp - 1 + (dq - 1)) <= Zpos p * Zpos q).
  { rewrite Z.pow_add_r by lia.
    apply Z.mul_le_mono_nonneg; try assumption;
      apply Z.pow_nonneg; lia. }
  rewrite Pos2Z.inj_mul in U.
  assert (dp - 1 + (dq - 1) < d); [ | lia].
  apply (Z.pow_lt_mono_r_iff 2); [lia | unfold d; lia | lia].
Qed.

Lemma SFmul_finite_Rnd (sx sy : bool) (mx my : positive) (ex ey : Z) :
  valid (S754_finite sx mx ex) -> valid (S754_finite sy my ey) ->
  Rnd (SF2R (S754_finite sx mx ex) * SF2R (S754_finite sy my ey))
      (SFmul prec emax (S754_finite sx mx ex) (S754_finite sy my ey)).
Proof.
  intros Vx Vy.
  apply valid_finite_inv in Vx as (Hex & Hmx & Hnx & Cx).
  apply valid_finite_inv in Vy as (Hey & Hmy & Hny & Cy).
  cbn [SFmul].
  set (x := (IZR (Zpos (mx * my)) * p2 (ex + ey))%R).
  assert (Hx : (0 < x)%R) by apply finite_pos_val.
  assert (R0 : rounds x (xorb sx sy)
                 (binary_round_aux prec emax (xorb sx sy)
                    (Zpos (mx * my)) (ex + ey) loc_Exact)).
  { apply binary_round_aux_rounds; [lia | | ].
    - unfold located, x. rewrite Rmult_assoc, <- p2_add.
      replace (ex + ey + - (ex + ey)) with 0 by lia. rewrite p2_0. lra.
    - cbn [Zdigits2]. pose proof (digits2_pos_mul mx my).
      rewrite fexp_eq in *. unfold bemin in *.
      assert (0 < Zpos (digits2_pos mx)) by lia.
      assert (0 < Zpos (digits2_pos my)) by lia.
      lia. }
  assert (Ex : x = (IZR (Zpos mx) * p2 ex * (IZR (Zpos my) * p2 ey))%R).
  { unfold x. rewrite Pos2Z.inj_mul, mult_IZR, p2_add. ring. }
  cbn [SF2R]. rewrite Ex in *.
  destruct sx, sy; cbn [xorb] in *.
  - left. split; [lra | ].
    match goal with |- rounds ?a _ _ => replace a with
      (IZR (Zpos mx) * p2 ex * (IZR (Zpos my) * p2 ey))%R by ring end.
    exact R0.
  - right. left. split; [lra | ].
    match goal with |- rounds ?a _ _ => replace a with
      (IZR (Zpos mx) * p2 ex * (IZR (Zpos my) * p2 ey))%R by ring end.
    exact R0.
  - right. left. split; [lra | ].
    match goal with |- rounds ?a _ _ => replace a with
      (IZR (Zpos mx) * p2 ex * (IZR (Zpos my) * p2 ey))%R by ring end.
    exact R0.
  - left. split; [lra | exact R0].
Qed.

Lemma SFmul_Rnd (x y : spec_float) :
  valid x -> valid y -> is_real x -> is_real y ->
  Rnd (SF2R x * SF2R y) (SFmul prec emax x y).
Proof.
  destruct x as [sx | sx | | sx mx ex], y as [sy | sy | | sy my ey];
    cbn [is_real]; try contradiction; intros Vx Vy _ _.
  - right. right. cbn [SF2R SFmul]. split; [lra | eauto].
  - right. right. cbn [SF2R SFmul]. split; [lra | eauto].
  - right. right. cbn [SF2R SFmul]. split; [destruct sx; lra | eauto].
  - now apply SFmul_finite_Rnd.
Qed.

(** *** Alignment and normalisation *)

Lemma iter_xO_val (m d : positive) :
  Zpos (Pos.iter xO m d) = Zpos m * 2 ^ Zpos d.
Proof.
  induction d as [ | d IH] using Pos.peano_ind.
  - cbn [Pos.iter]. lia.
  - rewrite Pos.iter_succ, Pos2Z.inj_succ, Z.pow_succ_r by lia.
    rewrite Pos2Z.inj_xO, IH. ring.
Qed.

Lemma iter_xO_digits (m d : positive) :
  Zpos (digits2_pos (Pos.iter xO m d)) = Zpos (digits2_pos m) + Zpos d.
Proof.
  induction d as [ | d IH] using Pos.peano_ind.
  - cbn [Pos.iter digits2_pos]. lia.
  - rewrite Pos.iter_succ. cbn [digits2_pos]. lia.
Qed.

Lemma shl_align_spec (mx : positive) (ex ex' : Z) :
  exists m' e',
    shl_align mx ex ex' = (m', e')
    /\ e' = Z.min ex ex'
    /\ Zpos m' = Zpos mx * 2 ^ (ex - e')
    /\ Zpos (digits2_pos m') + e' = Zpos (digits2_pos mx) + ex.
Proof.
  unfold shl_align. destruct (ex' - ex) as [ | d | d] eqn:E.
  - exists mx, ex. repeat split; try lia.
    replace (ex - ex) with 0 by lia. lia.
  - exists mx, ex. repeat split; try lia.
    replace (ex - ex) with 0 by lia. lia.
  - exists (Pos.iter xO mx d), ex'. repeat split; try lia.
    + rewrite iter_xO_val. f_equal. f_equal. lia.
    + rewrite iter_xO_digits. lia.
Qed.

Lemma dyadic_scale (m : Z) (e e' : Z) :
  e' <= e -> (IZR (m * 2 ^ (e - e')) * p2 e' = IZR m * p2 e)%R.
Proof.
  intros H. rewrite mult_IZR, <- p2_IZR by lia.
  rewrite Rmult_assoc, <- p2_add. f_equal. f_equal. lia.
Qed.

Lemma binary_round_rounds (s : bool) (m : positive) (e : Z) :
  rounds (IZR (Zpos m) * p2 e) s (binary_round prec emax s m e).
Proof.
  unfold binary_round.
  destruct (shl_align_spec m e (fexp prec emax (Zpos (digits2_pos m) + e)))
    as (m' & e' & E & He' & Hm' & Hd).
  rewrite E. apply binary_round_aux_rounds; [lia | | ].
  - unfold located. rewrite Hm', mult_IZR, <- p2_IZR by lia.
    rewrite Rmult_assoc, <- p2_add. reflexivity.
  - cbn [Zdigits2]. rewrite Hd. lia.
Qed.

Lemma binary_normalize_Rnd (M e : Z) :
  Rnd (IZR M * p2 e) (binary_normalize prec emax M e false).
Proof.
  destruct M as [ | p | p]; cbn [binary_normalize].
  - right. right. split; [lra | eauto].
  - left. split; [apply finite_pos_val | apply binary_round_rounds].
  - right. left. pose proof (finite_pos_val p e).
    change (Zneg p) with (- Zpos p). rewrite opp_IZR. split; [lra | ].
    replace (- (- IZR (Zpos p) * p2 e))%R with (IZR (Zpos p) * p2 e)%R by lra.
    apply binary_round_rounds.
Qed.

(** *** Addition and subtraction *)

Lemma aligned_val (s : bool) (m : positive) (e ez : Z) :
  ez <= e ->
  (IZR (cond_Zopp s (Zpos (fst (shl_align m e ez)))) * p2 ez
   = SF2R (S754_finite s m e))%R.
Proof.
  intros H. destruct (shl_align_spec m e ez) as (m' & e' & E & He' & Hm' & _).
  rewrite E. cbn [fst]. rewrite Hm'.
  replace e' with ez in * by lia.
  cbn [SF2R]. destruct s; cbn [cond_Zopp].
  - rewrite opp_IZR, <- (dyadic_scale (Zpos m) e ez H). ring.
  - now apply dyadic_scale.
Qed.

Lemma SFadd_finite_Rnd (sx sy : bool) (mx my : positive) (ex ey : Z) :
  Rnd (SF2R (S754_finite sx mx ex) + SF2R (S754_finite sy my ey))
      (SFadd prec emax (S754_finite sx mx ex) (S754_finite sy my ey)).
Proof.
  cbn [SFadd].
  rewrite <- (aligned_val sx mx ex (Z.min ex ey)) by lia.
  rewrite <- (aligned_val sy my ey (Z.min ex ey)) by lia.
  rewrite <- Rmult_plus_distr_r, <- plus_IZR.
  apply binary_normalize_Rnd.
Qed.

Lemma Rnd_zero (s : bool) : Rnd 0 (S754_zero s).
Proof. right. right. eauto. Qed.

Lemma SFadd_Rnd (x y : spec_float) :
  valid x -> valid y -> is_real x -> is_real y ->
  Rnd (SF2R x + SF2R y) (SFadd prec emax x y).
Proof.
  destruct x as [sx | sx | | sx mx ex], y as [sy | sy | | sy my ey];
    cbn [is_real]; try contradiction; intros Vx Vy _ _.
  - cbn [SF2R SFadd]. rewrite Rplus_0_l.
    destruct sx, sy; apply Rnd_zero.
  - cbn [SFadd]. change (SF2R (S754_zero sx)) with 0%R. rewrite Rplus_0_l.
    now apply valid_Rnd.
  - cbn [SFadd]. change (SF2R (S754_zero sy)) with 0%R. rewrite Rplus_0_r.
    now apply valid_Rnd.
  - apply SFadd_finite_Rnd.
Qed.

Lemma SFsub_SFadd (x y : spec_float) :
  SFsub prec emax x y = SFadd prec emax x (SFopp y).
Proof.
  destruct x as [sx | sx | | sx mx ex], y as [sy | sy | | sy my ey];
    try reflexivity;
    destruct sx, sy; reflexivity.
Qed.

Lemma valid_opp (y : spec_float) : valid y -> valid (SFopp y).
Proof. destruct y; auto. Qed.

(** *** Division *)

Lemma new_location_located (my q r : Z) :
  0 < my -> 0 <= r < my ->
  located (IZR q + IZR r / IZR my) q (new_location my r).
Proof.
  intros Hmy Hr.
  assert (HM : (0 < IZR my)%R) by (apply IZR_lt; lia).
  set (X := (IZR r / IZR my)%R).
  assert (HX : (X * IZR my = IZR r)%R) by (unfold X; field; lra).
  unfold new_location.
  destruct (Z.even my) eqn:Ev.
  - unfold new_location_even. destruct (Z.eqb_spec r 0) as [-> | Hr0].
    + unfold located, X. unfold Rdiv. lra.
    + assert (0 < IZR r)%R by (apply IZR_lt; lia).
      destruct (Z.compare_spec (2 * r) my) as [E | L | G]; unfold located.
      * apply (f_equal IZR) in E. rewrite mult_IZR in E. nra.
      * apply IZR_lt in L. rewrite mult_IZR in L. nra.
      * apply IZR_lt in G. rewrite mult_IZR in G.
        assert (IZR r < IZR my)%R by (apply IZR_lt; lia). nra.
  - unfold new_location_odd. destruct (Z.eqb_spec r 0) as [-> | Hr0].
    + unfold located, X. unfold Rdiv. lra.
    + assert (0 < IZR r)%R by (apply IZR_lt; lia).
      assert (Od : Z.odd my = true) by (rewrite <- Z.negb_even, Ev; reflexivity).
      apply Z.odd_spec in Od as [k Hk].
      destruct (Z.compare_spec (2 * r + 1) my) as [E | L | G]; unfold located.
      * assert (L : 2 * r < my) by lia.
        apply IZR_lt in L. rewrite mult_IZR in L. nra.
      * assert (L' : 2 * r < my) by lia.
        apply IZR_lt in L'. rewrite mult_IZR in L'. nra.
      * assert (G' : my < 2 * r) by lia.
        apply IZR_lt in G'. rewrite mult_IZR in G'.
        assert (IZR r < IZR my)%R by (apply IZR_lt; lia). nra.
Qed.

Lemma quotient_digits (m' my q r d1s d2 : Z) :
  0 < my -> m' = my * q + r -> 0 <= r < my -> 0 <= q ->
  my < 2 ^ d2 -> 0 <= d2 -> 2 ^ (d1s - 1) <= m' -> 0 < d1s ->
  d1s - d2 <= Zdigits2 q.
Proof.
  intros Hmy Hm' Hr Hq U2 Hd2 L1 Hd1.
  assert (Hdq : 0 <= Zdigits2 q) by (destruct q; cbn [Zdigits2]; lia).
  destruct (Z_le_gt_dec (d1s - d2) 0) as [ | Hk]; [lia | ].
  set (k := d1s - d2) in *.
  assert (E : 2 ^ (d1s - 1) = 2 ^ (k - 1) * 2 ^ d2).
  { rewrite <- Z.pow_add_r by lia. f_equal. unfold k. lia. }
  assert (P : 0 < 2 ^ (k - 1)) by (apply Z.pow_pos_nonneg; lia).
  assert (Hq1 : 2 ^ (k - 1) < q + 1).
  { apply (Z.mul_lt_mono_pos_l my); [assumption | ]. nia. }
  destruct q as [ | p | p]; [lia | | lia].
  cbn [Zdigits2]. pose proof (digits2_pos_bounds p) as [_ U].
  assert (k - 1 < Zpos (digits2_pos p)); [ | lia].
  apply (Z.pow_lt_mono_r_iff 2); lia.
Qed.

Lemma SFdiv_core_spec (mx my : positive) (ex ey : Z) :
  exists q e' l,
    SFdiv_core_binary prec emax (Zpos mx) ex (Zpos my) ey = (q, e', l)
    /\ 0 <= q
    /\ located (IZR (Zpos mx) * p2 ex / (IZR (Zpos my) * p2 ey) * p2 (- e'))
               q l
    /\ e' <= fexp prec emax (Zdigits2 q + e').
Proof.
  unfold SFdiv_core_binary. cbn [Zdigits2].
  set (d1 := Zpos (digits2_pos mx)). set (d2 := Zpos (digits2_pos my)).
  set (e' := Z.min (fexp prec emax (d1 + ex - (d2 + ey))) (ex - ey)).
  set (s := ex - ey - e').
  assert (Hs : 0 <= s) by (unfold s, e'; lia).
  set (m' := match s with
             | 0 => Zpos mx
             | Zpos _ => Z.shiftl (Zpos mx) s
             | Zneg _ => 0
             end).
  assert (Hm' : m' = Zpos mx * 2 ^ s).
  { unfold m'. destruct s as [ | p | p] eqn:E; [lia | | lia].
    apply Z.shiftl_mul_pow2. lia. }
  pose proof (Z_div_mod m' (Zpos my) ltac:(lia)) as DM.
  destruct (Z.div_eucl m' (Zpos my)) as [q r]. destruct DM as [DM Hr].
  assert (Hm'0 : 0 < m').
  { rewrite Hm'. apply Z.mul_pos_pos; [lia | apply Z.pow_pos_nonneg; lia]. }
  assert (Hq : 0 <= q) by nia.
  exists q, e', (new_location (Zpos my) r).
  split; [reflexivity | ]. split; [assumption | ]. split.
  - replace (IZR (Zpos mx) * p2 ex / (IZR (Zpos my) * p2 ey) * p2 (- e'))%R
      with (IZR q + IZR r / IZR (Zpos my))%R.
    + apply new_location_located; lia.
    + assert (HM : (0 < IZR (Zpos my))%R) by (apply IZR_lt; lia).
      pose proof (p2_pos ey) as Pey.
      assert (E1 : (p2 ex = p2 s * p2 e' * p2 ey)%R).
      { rewrite <- !p2_add. f_equal. unfold s. lia. }
      assert (E2 : (p2 (- e') * p2 e' = 1)%R).
      { rewrite <- p2_add. replace (- e' + e') with 0 by lia. apply p2_0. }
      assert (E3 : (IZR (Zpos mx) * p2 s
                    = IZR (Zpos my) * IZR q + IZR r)%R).
      { rewrite (p2_IZR s Hs), <- mult_IZR, <- Hm', DM.
        now rewrite plus_IZR, mult_IZR. }
      rewrite E1.
      replace (IZR (Zpos mx) * (p2 s * p2 e' * p2 ey)
               / (IZR (Zpos my) * p2 ey) * p2 (- e'))%R
        with (IZR (Zpos mx) * p2 s * (p2 (- e') * p2 e') / IZR (Zpos my))%R
        by (field; lra).
      rewrite E2, E3. field. lra.
  - pose proof (digits2_pos_bounds mx) as [L1 _].
    pose proof (digits2_pos_bounds my) as [_ U2].
    fold d1 in L1. fold d2 in U2.
    assert (Hd : d1 + s - d2 <= Zdigits2 q).
    { apply (quotient_digits m' (Zpos my) q r (d1 + s) d2);
        try assumption; try lia; try (unfold d1, d2; lia).
      rewrite Hm'. replace (d1 + s - 1) with (d1 - 1 + s) by lia.
      rewrite Z.pow_add_r by (unfold d1; lia).
      apply Z.mul_le_mono_nonneg_r; [apply Z.pow_nonneg; lia | assumption]. }
    rewrite fexp_eq. unfold e' at 1.
    rewrite fexp_eq. unfold s in Hd. lia.
Qed.

Lemma SFdiv_finite_Rnd (sx sy : bool) (mx my : positive) (ex ey : Z) :
  Rnd (SF2R (S754_finite sx mx ex) / SF2R (S754_finite sy my ey))
      (SFdiv prec emax (S754_finite sx mx ex) (S754_finite sy my ey)).
Proof.
  cbn [SFdiv].
  destruct (SFdiv_core_spec mx my ex ey) as (q & e' & l & E & Hq & Hl & He).
  rewrite E.
  pose proof (finite_pos_val mx ex) as Px.
  pose proof (finite_pos_val my ey) as Py.
  set (a := (IZR (Zpos mx) * p2 ex)%R) in *.
  set (b := (IZR (Zpos my) * p2 ey)%R) in *.
  assert (Pv : (0 < a / b)%R) by (apply Rdiv_lt_0_compat; assumption).
  pose proof (binary_round_aux_rounds (xorb sx sy) (a / b) q e' l Hq Hl He)
    as R0.
  cbn [SF2R]. fold a b.
  destruct sx, sy; cbn [xorb] in *.
  - left. replace (- a / - b)%R with (a / b)%R by (field; lra). now split.
  - right. left. replace (- a / b)%R with (- (a / b))%R by (field; lra).
    split; [lra | ]. now replace (- - (a / b))%R with (a / b)%R by lra.
  - right. left. replace (a / - b)%R with (- (a / b))%R by (field; lra).
    split; [lra | ]. now replace (- - (a / b))%R with (a / b)%R by lra.
  - left. now split.
Qed.

(** *** Monotonicity of the operations on values that are real numbers *)

Definition not_nan (z : spec_float) : Prop := z <> S754_nan.

Lemma SFmul_mono_real (x1 x2 y : spec_float) :
  valid x1 -> valid x2 -> valid y ->
  is_real x1 -> is_real x2 -> is_real y ->
  SFleb x1 x2 = true -> (0 <= SF2R y)%R ->
  SFleb (SFmul prec emax x1 y) (SFmul prec emax x2 y) = true.
Proof.
  intros V1 V2 Vy R1 R2 Ry H Hy.
  apply (Rnd_mono (SF2R x1 * SF2R y) (SF2R x2 * SF2R y));
    try (now apply SFmul_Rnd).
  apply SFleb_val in H; try assumption. nra.
Qed.

Lemma SFadd_mono_real (x1 x2 z : spec_float) :
  valid x1 -> valid x2 -> valid z ->
  is_real x1 -> is_real x2 -> is_real z ->
  SFleb x1 x2 = true ->
  SFleb (SFadd prec emax x1 z) (SFadd prec emax x2 z) = true.
Proof.
  intros V1 V2 Vz R1 R2 Rz H.
  apply (Rnd_mono (SF2R x1 + SF2R z) (SF2R x2 + SF2R z));
    try (now apply SFadd_Rnd).
  apply SFleb_val in H; try assumption. lra.
Qed.

Lemma SFdiv_anti_real (x : spec_float) (m1 m2 : positive) (e1 e2 : Z) :
  valid x -> is_real x -> (0 <= SF2R x)%R ->
  valid (S754_finite false m1 e1) -> valid (S754_finite false m2 e2) ->
  SFleb (S754_finite false m1 e1) (S754_finite false m2 e2) = true ->
  SFleb (SFdiv prec emax x (S754_finite false m2 e2))
        (SFdiv prec emax x (S754_finite false m1 e1)) = true.
Proof.
  intros Vx Rx Hx V1 V2 H.
  apply SFleb_val in H; try assumption; try exact I.
  pose proof (finite_pos_val m1 e1) as P1.
  pose proof (finite_pos_val m2 e2) as P2.
  cbn [SF2R] in H.
  destruct x as [sx | sx | | sx mx ex]; cbn [is_real] in Rx;
    try contradiction.
  - cbn [SFdiv]. destruct sx; reflexivity.
  - apply (Rnd_mono (SF2R (S754_finite sx mx ex) / SF2R (S754_finite false m2 e2))
                    (SF2R (S754_finite sx mx ex) / SF2R (S754_finite false m1 e1)));
      try apply SFdiv_finite_Rnd.
    cbn [SF2R] in Hx |- *.
    set (a := if sx then (- (IZR (Zpos mx) * p2 ex))%R
              else (IZR (Zpos mx) * p2 ex)%R) in *.
    unfold Rdiv. apply Rmult_le_compat_l; [assumption | ].
    apply Rinv_le_contravar; assumption.
Qed.

(** *** Monotonicity of the operations, infinities included *)

Lemma SFleb_pinf (w : spec_float) :
  not_nan w -> SFleb w (S754_infinity false) = true.
Proof.
  destruct w as [s | s | | s m e]; intros H; try reflexivity;
    try (destruct s; reflexivity). now elim H.
Qed.

Lemma SFleb_ninf (w : spec_float) :
  not_nan w -> SFleb (S754_infinity true) w = true.
Proof.
  destruct w as [s | s | | s m e]; intros H; try reflexivity;
    try (destruct s; reflexivity). now elim H.
Qed.

Lemma SFleb_refl (w : spec_float) : not_nan w -> SFleb w w = true.
Proof.
  destruct w as [s | s | | s m e]; intros H; try reflexivity;
    try (destruct s; reflexivity); [now elim H | ].
  unfold SFleb, SFcompare.
  rewrite Z.compare_refl, Pos.compare_cont_refl. destruct s; reflexivity.
Qed.

Ltac sf_close :=
  first
    [ reflexivity
    | discriminate
    | match goal with H : not_nan S754_nan |- _ => now elim H end
    | apply SFleb_pinf; assumption
    | apply SFleb_ninf; assumption
    | apply SFleb_refl; assumption ].

Lemma SFadd_mono (x1 x2 z : spec_float) :
  valid x1 -> valid x2 -> valid z ->
  SFleb x1 x2 = true ->
  not_nan (SFadd prec emax x1 z) -> not_nan (SFadd prec emax x2 z) ->
  SFleb (SFadd prec emax x1 z) (SFadd prec emax x2 z) = true.
Proof.
  intros V1 V2 Vz H N1 N2.
  destruct x1 as [s1 | s1 | | s1 m1 e1], x2 as [s2 | s2 | | s2 m2 e2],
           z as [sz | sz | | sz mz ez];
    try (apply SFadd_mono_real; (assumption || exact I));
    try destruct s1; try destruct s2; try destruct sz;
    cbn [SFadd] in N1, N2 |- *; sf_close.
Qed.

Lemma SFmul_mono (x1 x2 y : spec_float) :
  valid x1 -> valid x2 -> valid y ->
  SFleb x1 x2 = true -> SFltb (S754_zero false) y = true ->
  not_nan (SFmul prec emax x1 y) -> not_nan (SFmul prec emax x2 y) ->
  SFleb (SFmul prec emax x1 y) (SFmul prec emax x2 y) = true.
Proof.
  intros V1 V2 Vy H Hy N1 N2.
  destruct y as [sy | sy | | sy my ey]; try discriminate;
    destruct sy; try discriminate.
  - destruct x1 as [s1 | s1 | | s1 m1 e1], x2 as [s2 | s2 | | s2 m2 e2];
      try destruct s1; try destruct s2;
      cbn [SFmul xorb] in N1, N2 |- *; sf_close.
  - pose proof (finite_pos_val my ey) as Py.
    destruct x1 as [s1 | s1 | | s1 m1 e1], x2 as [s2 | s2 | | s2 m2 e2];
      try (apply SFmul_mono_real;
           first [assumption | exact I | cbn [SF2R]; lra]);
      try destruct s1; try destruct s2;
      cbn [SFmul xorb] in N1, N2 |- *; sf_close.
Qed.

Lemma SFdiv_anti (mx : positive) (ex : Z) (y1 y2 : spec_float) :
  valid (S754_finite false mx ex) -> valid y1 -> valid y2 ->
  SFltb (S754_zero false) y1 = true -> SFleb y1 y2 = true ->
  SFleb (SFdiv prec emax (S754_finite false mx ex) y2)
        (SFdiv prec emax (S754_finite false mx ex) y1) = true.
Proof.
  intros Vx V1 V2 H1 H.
  pose proof (finite_pos_val mx ex) as Px.
  destruct y1 as [s1 | s1 | | s1 m1 e1]; try discriminate;
    destruct s1; try discriminate;
    destruct y2 as [s2 | s2 | | s2 m2 e2]; try discriminate;
    destruct s2; try discriminate; try reflexivity.
  - apply nonpos_le_nonneg; [exact I | ].
    pose proof (finite_pos_val m1 e1) as P1.
    apply (Rnd_sign _ _ (SFdiv_finite_Rnd false false mx m1 ex e1)).
    cbn [SF2R]. apply Rlt_le, Rdiv_lt_0_compat; assumption.
  - apply SFdiv_anti_real; try assumption; try exact I.
    cbn [SF2R]. lra.
Qed.

Lemma SFleb_trans (x y z : spec_float) :
  valid x -> valid y -> valid z ->
  SFleb x y = true -> SFleb y z = true -> SFleb x z = true.
Proof.
  intros Vx Vy Vz H1 H2.
  destruct x as [sx | sx | | sx mx ex], y as [sy | sy | | sy my ey],
           z as [sz | sz | | sz mz ez];
    try (apply val_SFleb; try assumption; try exact I;
         apply SFleb_val in H1; try assumption; try exact I;
         apply SFleb_val in H2; try assumption; try exact I; lra);
    try destruct sx; try destruct sy; try destruct sz; sf_close.
Qed.

Lemma SFadd_comm (x y : spec_float) :
  SFadd prec emax x y = SFadd prec emax y x.
Proof.
  destruct x as [sx | sx | | sx mx ex], y as [sy | sy | | sy my ey];
    try reflexivity; try (destruct sx, sy; reflexivity).
  cbn [SFadd]. rewrite (Z.min_comm ey ex). f_equal. apply Z.add_comm.
Qed.

End Rounding.

(** ** The primitive operations are monotone *)

Section Primitive.

Local Open Scope float_scope.

Lemma Prim2SF_zero : Prim2SF 0 = S754_zero false.
Proof. vm_compute. reflexivity. Qed.

Lemma Prim2SF_one : Prim2SF 1 = S754_finite false 4503599627370496 (-52).
Proof. vm_compute. reflexivity. Qed.

Lemma ordered_Prim2SF (x : float) : ordered x -> not_nan (Prim2SF x).
Proof.
  unfold ordered, not_nan. rewrite FloatAxioms.eqb_spec. intros H E.
  rewrite E in H. discriminate.
Qed.

Lemma Prim2SF_ordered (x : float) : not_nan (Prim2SF x) -> ordered x.
Proof.
  unfold ordered. rewrite FloatAxioms.eqb_spec. intros H.
  apply SFleb_refl in H. revert H. unfold SFleb, SFeqb.
  pose proof (SFcompare_swap (Prim2SF x) (Prim2SF x)) as S.
  destruct (SFcompare (Prim2SF x) (Prim2SF x)) as [[ | | ] | ];
    cbn in S; congruence.
Qed.

Lemma valid_Prim2SF (x : float) : valid (Prim2SF x).
Proof. apply Prim2SF_valid. Qed.

Lemma mul_mono (x1 x2 y : float) :
  (x1 <=? x2) = true -> (0 <? y) = true ->
  ordered (x1 * y) -> ordered (x2 * y) ->
  (x1 * y <=? x2 * y) = true.
Proof.
  intros H Hy O1 O2. apply ordered_Prim2SF in O1, O2.
  rewrite FloatAxioms.leb_spec in *. rewrite FloatAxioms.ltb_spec in Hy.
  rewrite !mul_spec in *. unfold SF64mul in *. rewrite Prim2SF_zero in Hy.
  apply SFmul_mono; auto using valid_Prim2SF.
Qed.

Lemma add_mono_l (x1 x2 z : float) :
  (x1 <=? x2) = true -> ordered (x1 + z) -> ordered (x2 + z) ->
  (x1 + z <=? x2 + z) = true.
Proof.
  intros H O1 O2. apply ordered_Prim2SF in O1, O2.
  rewrite FloatAxioms.leb_spec in *. rewrite !add_spec in *.
  unfold SF64add in *.
  apply SFadd_mono; auto using valid_Prim2SF.
Qed.

Lemma add_mono_r (x y1 y2 : float) :
  (y1 <=? y2) = true -> ordered (x + y1) -> ordered (x + y2) ->
  (x + y1 <=? x + y2) = true.
Proof.
  intros H O1 O2. apply ordered_Prim2SF in O1, O2.
  rewrite FloatAxioms.leb_spec in *. rewrite !add_spec in *.
  unfold SF64add in *.
  rewrite (SFadd_comm (Prim2SF x) (Prim2SF y1)) in *.
  rewrite (SFadd_comm (Prim2SF x) (Prim2SF y2)) in *.
  apply SFadd_mono; auto using valid_Prim2SF.
Qed.

Lemma sub_mono_l (x1 x2 z : float) :
  (x1 <=? x2) = true -> ordered (x1 - z) -> ordered (x2 - z) ->
  (x1 - z <=? x2 - z) = true.
Proof.
  intros H O1 O2. apply ordered_Prim2SF in O1, O2.
  rewrite FloatAxioms.leb_spec in *. rewrite !sub_spec in *.
  unfold SF64sub in *. rewrite !SFsub_SFadd in *.
  apply SFadd_mono; auto using valid_Prim2SF, valid_opp.
Qed.

Lemma sub_anti_r (x y1 y2 : float) :
  (y1 <=? y2) = true -> ordered (x - y1) -> ordered (x - y2) ->
  (x - y2 <=? x - y1) = true.
Proof.
  intros H O1 O2. apply ordered_Prim2SF in O1, O2.
  rewrite FloatAxioms.leb_spec in *. rewrite !sub_spec in *.
  unfold SF64sub in *. rewrite !SFsub_SFadd in *.
  rewrite !(SFadd_comm (Prim2SF x)) in *.
  apply SFadd_mono; auto using valid_Prim2SF, valid_opp.
  now rewrite SFleb_opp.
Qed.

Lemma div_one_anti (y1 y2 : float) :
  (0 <? y1) = true -> (y1 <=? y2) = true ->
  (1 / y2 <=? 1 / y1) = true.
Proof.
  intros H1 H. rewrite FloatAxioms.leb_spec in *.
  rewrite FloatAxioms.ltb_spec in H1. rewrite !div_spec in *.
  unfold SF64div in *.
  rewrite Prim2SF_zero in H1. pose proof (valid_Prim2SF 1) as V.
  rewrite Prim2SF_one in *.
  apply SFdiv_anti; auto using valid_Prim2SF.
Qed.

Lemma leb_trans (x y z : float) :
  (x <=? y) = true -> (y <=? z) = true -> (x <=? z) = true.
Proof.
  rewrite !FloatAxioms.leb_spec.
  apply SFleb_trans; apply valid_Prim2SF.
Qed.

End Primitive.

(** ** Order facts on binary64, from the specification of the primitives *)

Section FloatOrder.

Lemma ordered_not_nan (x : float) : ordered x <-> is_nan x = false.
Proof.
  unfold ordered, is_nan. destruct (x =? x); simpl; split; congruence.
Qed.

Lemma compare_defined (x y : float) :
  ordered x -> ordered y ->
  exists c, SFcompare (Prim2SF x) (Prim2SF y) = Some c.
Proof.
  unfold ordered. rewrite !FloatAxioms.eqb_spec. unfold SFeqb.
  destruct (Prim2SF x) as [sx | sx | | sx mx ex],
           (Prim2SF y) as [sy | sy | | sy my ey]; simpl;
    intros Hx Hy; try discriminate; eauto.
Qed.

Lemma ltb_lt_inv (x y : float) :
  (x <? y) = true -> SFcompare (Prim2SF x) (Prim2SF y) = Some Lt.
Proof.
  rewrite FloatAxioms.ltb_spec. unfold SFltb.
  destruct (SFcompare (Prim2SF x) (Prim2SF y)) as [[ | | ] | ];
    congruence.
Qed.

(** [<] is asymmetric. *)
Lemma ltb_asym (x y : float) : (x <? y) = true -> (y <? x) = false.
Proof.
  intros H. apply ltb_lt_inv in H.
  rewrite FloatAxioms.ltb_spec. unfold SFltb. rewrite SFcompare_swap, H. reflexivity.
Qed.

(** [x < y] excludes [x == y]. *)
Lemma ltb_neq (x y : float) : (x <? y) = true -> (y =? x) = false.
Proof.
  intros H. apply ltb_lt_inv in H.
  rewrite FloatAxioms.eqb_spec. unfold SFeqb. rewrite SFcompare_swap, H. reflexivity.
Qed.

(** On two numbers neither of which is NaN, [not (x < y)] is [y <= x]. *)
Lemma ltb_false_leb (x y : float) :
  ordered x -> ordered y -> (x <? y) = false -> (y <=? x) = true.
Proof.
  intros Hx Hy. destruct (compare_defined x y Hx Hy) as [c Hc].
  rewrite FloatAxioms.ltb_spec, FloatAxioms.leb_spec. unfold SFltb, SFleb.
  rewrite (SFcompare_swap (Prim2SF x) (Prim2SF y)), Hc.
  destruct c; simpl; congruence.
Qed.

Lemma ltb_leb (x y : float) : (x <? y) = true -> (x <=? y) = true.
Proof.
  intros H. apply ltb_lt_inv in H.
  rewrite FloatAxioms.leb_spec. unfold SFleb. rewrite H. reflexivity.
Qed.

Lemma leb_refl (x : float) : ordered x -> (x <=? x) = true.
Proof.
  unfold ordered. rewrite FloatAxioms.eqb_spec, FloatAxioms.leb_spec. unfold SFeqb, SFleb.
  destruct (SFcompare (Prim2SF x) (Prim2SF x)) as [[ | | ] | ]; congruence.
Qed.

Lemma ltb_ordered_l (x y : float) : (x <? y) = true -> ordered x.
Proof.
  intros H. apply ltb_lt_inv in H. unfold ordered.
  rewrite FloatAxioms.eqb_spec. unfold SFeqb.
  destruct (Prim2SF x) as [sx | sx | | sx mx ex]; simpl in *;
    try discriminate; try reflexivity; try (destruct sx; reflexivity).
  destruct sx; rewrite Z.compare_refl, Pos.compare_cont_refl; reflexivity.
Qed.

Lemma leb_ordered_r (x y : float) : (x <=? y) = true -> ordered y.
Proof.
  rewrite FloatAxioms.leb_spec. unfold SFleb, ordered. rewrite FloatAxioms.eqb_spec. unfold SFeqb.
  destruct (Prim2SF y) as [sy | sy | | sy my ey]; simpl;
    try reflexivity; try (destruct sy; reflexivity).
  - destruct (Prim2SF x) as [sx | sx | | sx mx ex]; simpl; discriminate.
  - intros _. destruct sy; rewrite Z.compare_refl, Pos.compare_cont_refl; reflexivity.
Qed.

End FloatOrder.

(** ** Properties of the builtin [max] and of the division *)

Lemma float_truediv_ok (a b : float) :
  (b =? 0) = false -> float_truediv a b = Ok (a / b).
Proof. intros H. unfold float_truediv. rewrite H. reflexivity. Qed.

Lemma float_truediv_raise (a b : float) :
  (b =? 0) = true -> float_truediv a b = Raise ZeroDivisionError.
Proof. intros H. unfold float_truediv. rewrite H. reflexivity. Qed.

Lemma ordered_floor : ordered min_diffusion_floor.
Proof. reflexivity. Qed.

Lemma ordered_zero : ordered 0.
Proof. reflexivity. Qed.

(** [max] returns one of its arguments. *)
Lemma max_cases (a b : float) :
  ((a <? b) = true /\ Py.max a b = b) \/ ((a <? b) = false /\ Py.max a b = a).
Proof. unfold Py.max. destruct (a <? b); auto. Qed.

(** With a number as first argument, [max] is an upper bound of it, whatever
    the second argument is (a NaN there is dropped). *)
Lemma max_ge_first (a b : float) : ordered a -> (a <=? Py.max a b) = true.
Proof.
  intros Ha. destruct (max_cases a b) as [[H ->] | [_ ->]].
  - now apply ltb_leb.
  - now apply leb_refl.
Qed.

(** With a number as second argument, [max] is an upper bound of it as soon
    as the first argument is a number too. *)
Lemma max_ge_second (a b : float) :
  ordered a -> ordered b -> (b <=? Py.max a b) = true.
Proof.
  intros Ha Hb. destruct (max_cases a b) as [[_ ->] | [H ->]].
  - now apply leb_refl.
  - now apply ltb_false_leb.
Qed.

(** A NaN in first position is returned as it is. *)
Lemma max_nan_first (a b : float) : is_nan a = true -> Py.max a b = a.
Proof.
  intros Ha. destruct (max_cases a b) as [[H _] | [_ ->]]; [ | reflexivity].
  apply ltb_ordered_l, ordered_not_nan in H. congruence.
Qed.

(** A negative reading is clamped to [0.0]. *)
Lemma max_zero_negative (S_local : float) :
  (S_local <? 0) = true -> Py.max 0 S_local = 0.
Proof.
  intros H. unfold Py.max. now rewrite (ltb_asym _ _ H).
Qed.

(** ** NaN propagates through the arithmetic *)

Lemma SFadd_not_nan (x y : spec_float) :
  not_nan (SFadd prec emax x y) -> not_nan x /\ not_nan y.
Proof.
  unfold not_nan.
  destruct x as [sx | sx | | sx mx ex], y as [sy | sy | | sy my ey];
    cbn [SFadd]; intros H; split; congruence.
Qed.

Lemma SFmul_not_nan (x y : spec_float) :
  not_nan (SFmul prec emax x y) -> not_nan x /\ not_nan y.
Proof.
  unfold not_nan.
  destruct x as [sx | sx | | sx mx ex], y as [sy | sy | | sy my ey];
    cbn [SFmul]; intros H; split; congruence.
Qed.

Lemma SFdiv_not_nan (x y : spec_float) :
  not_nan (SFdiv prec emax x y) -> not_nan x /\ not_nan y.
Proof.
  unfold not_nan.
  destruct x as [sx | sx | | sx mx ex], y as [sy | sy | | sy my ey];
    cbn [SFdiv]; intros H; split; congruence.
Qed.

Lemma ordered_add_inv (x y : float) :
  ordered (x + y) -> ordered x /\ ordered y.
Proof.
  intros H. apply ordered_Prim2SF in H. rewrite add_spec in H.
  apply SFadd_not_nan in H as [Hx Hy]. split; now apply Prim2SF_ordered.
Qed.

Lemma ordered_sub_inv (x y : float) :
  ordered (x - y) -> ordered x /\ ordered y.
Proof.
  intros H. apply ordered_Prim2SF in H. rewrite sub_spec in H.
  unfold SF64sub in H. rewrite SFsub_SFadd in H.
  apply SFadd_not_nan in H as [Hx Hy]. split; apply Prim2SF_ordered; auto.
  intros E. apply Hy. rewrite E. reflexivity.
Qed.

Lemma ordered_mul_inv (x y : float) :
  ordered (x * y) -> ordered x /\ ordered y.
Proof.
  intros H. apply ordered_Prim2SF in H. rewrite mul_spec in H.
  apply SFmul_not_nan in H as [Hx Hy]. split; now apply Prim2SF_ordered.
Qed.

Lemma ordered_div_inv (x y : float) :
  ordered (x / y) -> ordered x /\ ordered y.
Proof.
  intros H. apply ordered_Prim2SF in H. rewrite div_spec in H.
  apply SFdiv_not_nan in H as [Hx Hy]. split; now apply Prim2SF_ordered.
Qed.

(** ** More order facts *)

Lemma leb_ordered_l (x y : float) : (x <=? y) = true -> ordered x.
Proof.
  rewrite FloatAxioms.leb_spec. intros H. apply Prim2SF_ordered.
  intros E. rewrite E in H. discriminate.
Qed.

Lemma ltb_not_leb (x y : float) : (x <? y) = true -> (y <=? x) = false.
Proof.
  intros H. apply ltb_lt_inv in H.
  rewrite FloatAxioms.leb_spec. unfold SFleb.
  rewrite SFcompare_swap, H. reflexivity.
Qed.

Lemma leb_neq_ltb (x y : float) :
  (x <=? y) = true -> (y =? x) = false -> (x <? y) = true.
Proof.
  rewrite FloatAxioms.leb_spec, FloatAxioms.eqb_spec, FloatAxioms.ltb_spec.
  unfold SFleb, SFeqb, SFltb.
  rewrite (SFcompare_swap (Prim2SF x) (Prim2SF y)).
  destruct (SFcompare (Prim2SF x) (Prim2SF y)) as [[ | | ] | ];
    cbn; congruence.
Qed.

(** [max(., c)] is monotone. *)
Lemma max_mono (x1 x2 c : float) :
  (x1 <=? x2) = true -> ordered c ->
  (Py.max x1 c <=? Py.max x2 c) = true.
Proof.
  intros H Hc.
  pose proof (leb_ordered_l _ _ H) as O1.
  pose proof (leb_ordered_r _ _ H) as O2.
  destruct (max_cases x1 c) as [[L1 ->] | [L1 ->]];
    destruct (max_cases x2 c) as [[L2 ->] | [L2 ->]].
  - now apply leb_refl.
  - now apply ltb_false_leb.
  - apply ltb_false_leb in L1; try assumption.
    pose proof (leb_trans _ _ _ L1 H) as L.
    apply ltb_not_leb in L2. congruence.
  - exact H.
Qed.

(** If [max(d, c)] is a number for a number [c], then [d] is a number. *)
Lemma ordered_max_inv (d c : float) : ordered (Py.max d c) -> ordered d.
Proof.
  destruct (max_cases d c) as [[L ->] | [_ ->]]; [ | auto].
  intros _. now apply ltb_ordered_l in L.
Qed.

(** ** [calculate_unex_diffusion]: the formula *)

(** C1.  When [B] is not zero, [calculate_unex_diffusion] returns
    [max(alpha * (T / B) - beta * E_h + gamma * max(0, S_local), 1e-4)]:
    the entropy reading is clamped first and the clamped value is never
    below zero, the linear combination is evaluated on it, and the floor is
    applied to the outcome. *)
Theorem calculate_unex_diffusion_formula
    (T B E_harmonic S_local alpha_coeff beta_coeff gamma_coeff delta : float) :
  (B =? 0) = false ->
  calculate_unex_diffusion T B E_harmonic S_local
    alpha_coeff beta_coeff gamma_coeff delta
  = Ok (Py.max (alpha_coeff * (T / B) - beta_coeff * E_harmonic
                + gamma_coeff * Py.max 0 S_local) 1e-4)
  /\ (0 <=? Py.max 0 S_local) = true.
Proof.
  intros HB. split.
  - unfold calculate_unex_diffusion. rewrite (float_truediv_ok _ _ HB).
    reflexivity.
  - apply max_ge_first, ordered_zero.
Qed.

Lemma calculate_unex_diffusion_formula_witness :
  (5 =? 0) = false /\
  calculate_unex_diffusion 10 5 1 0.5 1 1 1 0.01 = Ok 1.5.
Proof.
  split; [reflexivity | ].
  rewrite (proj1 (calculate_unex_diffusion_formula 10 5 1 0.5 1 1 1 0.01 eq_refl)).
  reflexivity.
Defined.

(** The two scenarios Python evaluates to a value: above the floor, and
    clamped to it. *)
Example scenario_above_floor :
  calculate_unex_diffusion 10 5 1 0.5 1 1 1 0.01 = Ok 1.5.
Proof. reflexivity. Qed.

Example scenario_at_floor :
  calculate_unex_diffusion 1 20 10 0 1 1 1 0.01 = Ok 1e-4.
Proof. reflexivity. Qed.

(** C4.  A negative entropy reading gives the same outcome as the reading
    [0]: the same value when [B] is not zero, the same exception when it
    is. *)
Theorem negative_entropy_as_zero
    (T B E_harmonic S_local alpha_coeff beta_coeff gamma_coeff delta : float) :
  (S_local <? 0) = true ->
  calculate_unex_diffusion T B E_harmonic S_local
    alpha_coeff beta_coeff gamma_coeff delta
  = calculate_unex_diffusion T B E_harmonic 0
      alpha_coeff beta_coeff gamma_coeff delta.
Proof.
  intros H. unfold calculate_unex_diffusion.
  rewrite (max_zero_negative _ H). reflexivity.
Qed.

Lemma negative_entropy_as_zero_witness :
  (-0.25 <? 0) = true /\
  calculate_unex_diffusion 10 5 1 (-0.25) 1 1 1 0.01 = Ok 1 /\
  calculate_unex_diffusion 10 5 1 0 1 1 1 0.01 = Ok 1.
Proof.
  split; [reflexivity | split].
  - rewrite (negative_entropy_as_zero 10 5 1 (-0.25) 1 1 1 0.01 eq_refl).
    reflexivity.
  - reflexivity.
Defined.

(** C6.  The argument [delta] has no effect on the outcome. *)
Theorem delta_is_ignored
    (T B E_harmonic S_local alpha_coeff beta_coeff gamma_coeff
     delta1 delta2 : float) :
  calculate_unex_diffusion T B E_harmonic S_local
    alpha_coeff beta_coeff gamma_coeff delta1
  = calculate_unex_diffusion T B E_harmonic S_local
      alpha_coeff beta_coeff gamma_coeff delta2.
Proof. reflexivity. Qed.

(** C7.  When [B] is zero the function returns no value: the division
    raises [ZeroDivisionError], which reaches the caller; in particular the
    outcome is neither the floor nor any other number. *)
Theorem zero_field_raises
    (T B E_harmonic S_local alpha_coeff beta_coeff gamma_coeff delta : float) :
  (B =? 0) = true ->
  calculate_unex_diffusion T B E_harmonic S_local
    alpha_coeff beta_coeff gamma_coeff delta
  = Raise ZeroDivisionError
  /\ forall d : float,
       calculate_unex_diffusion T B E_harmonic S_local
         alpha_coeff beta_coeff gamma_coeff delta <> Ok d.
Proof.
  intros HB.
  assert (E : calculate_unex_diffusion T B E_harmonic S_local
                alpha_coeff beta_coeff gamma_coeff delta
              = Raise ZeroDivisionError).
  { unfold calculate_unex_diffusion.
    rewrite (float_truediv_raise _ _ HB). reflexivity. }
  split; [exact E | ]. intros d. rewrite E. discriminate.
Qed.

Lemma zero_field_raises_witness :
  (0 =? 0) = true /\
  calculate_unex_diffusion 10 0 1 0.5 1 1 1 0.01 = Raise ZeroDivisionError.
Proof.
  split; [reflexivity | ].
  exact (proj1 (zero_field_raises 10 0 1 0.5 1 1 1 0.01 eq_refl)).
Defined.

(** A negative zero is a zero divisor as well. *)
Example negative_zero_field_raises :
  calculate_unex_diffusion 10 (-0) 1 0.5 1 1 1 0.01 = Raise ZeroDivisionError.
Proof. reflexivity. Qed.

(** ** The floor *)

Lemma calculate_unex_diffusion_raw
    (T B E_harmonic S_local alpha_coeff beta_coeff gamma_coeff delta : float) :
  (B =? 0) = false ->
  calculate_unex_diffusion T B E_harmonic S_local
    alpha_coeff beta_coeff gamma_coeff delta
  = Ok (Py.max (raw_diffusion T B E_harmonic S_local
                  alpha_coeff beta_coeff gamma_coeff) min_diffusion_floor).
Proof.
  intros HB. unfold calculate_unex_diffusion.
  rewrite (float_truediv_ok _ _ HB). reflexivity.
Qed.

Lemma Prim2SF_floor :
  Prim2SF min_diffusion_floor = S754_finite false 7378697629483821 (-66).
Proof. vm_compute. reflexivity. Qed.

(** The value of [max(d, 1e-4)] is never a zero, so it can always be used
    as a divisor. *)
Lemma max_floor_not_zero (d : float) :
  (Py.max d min_diffusion_floor =? 0) = false.
Proof.
  destruct (max_cases d min_diffusion_floor) as [[_ ->] | [H ->]];
    [reflexivity | ].
  destruct (d =? 0) eqn:E; [ | reflexivity].
  exfalso. revert H E.
  rewrite FloatAxioms.ltb_spec, FloatAxioms.eqb_spec.
  rewrite Prim2SF_floor, Prim2SF_zero.
  unfold SFltb, SFeqb.
  destruct (Prim2SF d) as [s | s | | s m e].
  - cbn. discriminate.
  - cbn. destruct s; discriminate.
  - cbn. discriminate.
  - unfold SFcompare. destruct s; discriminate.
Qed.

(** C2.  The claim, which the docstring of the function makes too
    ("guaranteed to be at least min_diffusion_floor"), is that the value
    returned by every completing call is at least [1e-4].  The code breaks
    it at these finite arguments: [T / B] and [beta * E_harmonic] both
    overflow to [inf], their difference is NaN, and
    [max(diffusion_coefficient, min_diffusion_floor)] keeps its first
    argument, the NaN, which is not [>= 1e-4].  (The sibling clamp
    [max(0.0, S_local)] has the constant first and does drop a NaN.) *)
Lemma floor_fails_on_overflow :
  (1e-308 =? 0) = false /\
  calculate_unex_diffusion 1e308 1e-308 1e308 0 1 1e308 1 0.01 = Ok nan /\
  (1e-4 <=? nan) = false.
Proof. split; [ | split]; reflexivity. Qed.

(** Where the floor does hold: on every call with [B] not zero the
    function completes, and the value it returns is at least [1e-4]
    whenever the linear combination is a number; a NaN linear combination
    is what gets through. *)
Theorem floor_invariant
    (T B E_harmonic S_local alpha_coeff beta_coeff gamma_coeff delta : float) :
  (B =? 0) = false ->
  exists d : float,
    calculate_unex_diffusion T B E_harmonic S_local
      alpha_coeff beta_coeff gamma_coeff delta = Ok d
    /\ (is_nan (raw_diffusion T B E_harmonic S_local
                  alpha_coeff beta_coeff gamma_coeff) = false ->
        (1e-4 <=? d) = true)
    /\ (is_nan (raw_diffusion T B E_harmonic S_local
                  alpha_coeff beta_coeff gamma_coeff) = true ->
        is_nan d = true).
Proof.
  intros HB. eexists. split; [ | split].
  - apply calculate_unex_diffusion_raw, HB.
  - intros H. apply max_ge_second; [ | exact ordered_floor].
    now apply ordered_not_nan.
  - intros H. now rewrite (max_nan_first _ _ H).
Qed.

Lemma floor_invariant_witness :
  (20 =? 0) = false /\
  is_nan (raw_diffusion 1 20 10 0 1 1 1) = false /\
  exists d : float,
    calculate_unex_diffusion 1 20 10 0 1 1 1 0.01 = Ok d
    /\ (1e-4 <=? d) = true.
Proof.
  split; [reflexivity | split; [reflexivity | ]].
  destruct (floor_invariant 1 20 10 0 1 1 1 0.01 eq_refl) as [d [H1 [H2 _]]].
  exists d. split; [exact H1 | exact (H2 eq_refl)].
Defined.

(** ** Confinement times and reference coefficients in [main] *)

Lemma bind_Ok_inv {A B : Type} (c : result A) (k : A -> result B) (b : B) :
  Py.bind c k = Ok b -> exists a, c = Ok a /\ k a = Ok b.
Proof. destruct c as [a | e]; simpl; [eauto | discriminate]. Qed.

Lemma float_truediv_Ok_inv (a b q : float) :
  float_truediv a b = Ok q -> (b =? 0) = false /\ q = a / b.
Proof.
  unfold float_truediv. destruct (b =? 0); [discriminate | ].
  intros H. injection H as <-. auto.
Qed.

(** [x == y] excludes [y < x]. *)
Lemma eqb_not_ltb (x y : float) : (x =? y) = true -> (y <? x) = false.
Proof.
  rewrite FloatAxioms.eqb_spec, FloatAxioms.ltb_spec. unfold SFeqb, SFltb.
  rewrite (SFcompare_swap (Prim2SF x) (Prim2SF y)).
  destruct (SFcompare (Prim2SF x) (Prim2SF y)) as [[ | | ] | ];
    simpl; congruence.
Qed.

Section MainFacts.

Variable float_pow : float -> float -> result float.
Hypothesis float_pow_one : forall w, float_pow 1 w = Ok 1.

(** With the characteristic length [a = 1.0] of the program, the
    confinement time is [1.0 / D], and a zero [D] raises. *)
Lemma tau_E_one (D : float) : tau_E float_pow 1 D = float_truediv 1 D.
Proof. unfold tau_E. rewrite float_pow_one. reflexivity. Qed.

(** Every successful run of [main] has the shape of its source text. *)
Lemma main_Ok_inv
    (T B E_harmonic S_local alpha_coeff beta_coeff gamma_coeff delta : float)
    (r : report) :
  main float_pow T B E_harmonic S_local
    alpha_coeff beta_coeff gamma_coeff delta = Ok r ->
  exists rT B2 : float,
    (B =? 0) = false /\ float_pow T 0.5 = Ok rT /\ float_pow B 2 = Ok B2 /\
    (B2 =? 0) = false /\ (D_Bohm r =? 0) = false /\
    (D_Neoclassical r =? 0) = false /\
    D_UNEX r = Py.max (raw_diffusion T B E_harmonic S_local
                         alpha_coeff beta_coeff gamma_coeff)
                      min_diffusion_floor /\
    tau_E_unex r = 1 / D_UNEX r /\
    D_Bohm r = 1 * (T / B) /\
    tau_E_bohm r = 1 / D_Bohm r /\
    D_Neoclassical r = 0.1 * (rT / B2) /\
    tau_E_neoclassical r = 1 / D_Neoclassical r /\
    bohm_banner r = compare_banner (tau_E_unex r) (tau_E_bohm r) /\
    neoclassical_banner r
    = compare_banner (tau_E_unex r) (tau_E_neoclassical r).
Proof.
  unfold main. intros H.
  apply bind_Ok_inv in H as [d [Hd H]].
  apply bind_Ok_inv in H as [tu [Htu H]].
  apply bind_Ok_inv in H as [q [Hq H]].
  apply bind_Ok_inv in H as [tb [Htb H]].
  apply bind_Ok_inv in H as [rT [HrT H]].
  apply bind_Ok_inv in H as [B2 [HB2 H]].
  apply bind_Ok_inv in H as [q' [Hq' H]].
  apply bind_Ok_inv in H as [tn [Htn H]].
  injection H as <-. cbn [D_UNEX tau_E_unex D_Bohm tau_E_bohm D_Neoclassical
                          tau_E_neoclassical bohm_banner neoclassical_banner].
  rewrite tau_E_one in Htu, Htb, Htn.
  apply float_truediv_Ok_inv in Hq as [HB ->].
  apply float_truediv_Ok_inv in Htu as [_ ->].
  apply float_truediv_Ok_inv in Htb as [Hb0 ->].
  apply float_truediv_Ok_inv in Hq' as [HB20 ->].
  apply float_truediv_Ok_inv in Htn as [Hn0 ->].
  rewrite (calculate_unex_diffusion_raw _ _ _ _ _ _ _ _ HB) in Hd.
  injection Hd as <-.
  exists rT, B2. repeat (split; [assumption || reflexivity | ]).
  reflexivity.
Qed.

(** [main] completes as soon as no divisor is a zero and the two powers
    are defined. *)
Lemma main_returns
    (T B E_harmonic S_local alpha_coeff beta_coeff gamma_coeff delta : float)
    (rT B2 : float) :
  (B =? 0) = false ->
  float_pow T 0.5 = Ok rT -> float_pow B 2 = Ok B2 ->
  (B2 =? 0) = false ->
  (1 * (T / B) =? 0) = false ->
  (0.1 * (rT / B2) =? 0) = false ->
  exists r : report,
    main float_pow T B E_harmonic S_local
      alpha_coeff beta_coeff gamma_coeff delta = Ok r.
Proof.
  intros HB HrT HB2 HB20 Hb0 Hn0. unfold main. cbv zeta.
  rewrite (calculate_unex_diffusion_raw _ _ _ _ _ _ _ _ HB). cbn [Py.bind].
  rewrite tau_E_one, (float_truediv_ok _ _ (max_floor_not_zero _)).
  cbn [Py.bind].
  rewrite (float_truediv_ok _ _ HB). cbn [Py.bind].
  rewrite tau_E_one, (float_truediv_ok _ _ Hb0). cbn [Py.bind].
  rewrite HrT. cbn [Py.bind]. rewrite HB2. cbn [Py.bind].
  rewrite (float_truediv_ok _ _ HB20). cbn [Py.bind].
  rewrite tau_E_one, (float_truediv_ok _ _ Hn0). cbn [Py.bind].
  eexists. reflexivity.
Qed.

End MainFacts.




(** C8.  The two reference coefficients of a run of [main] are
    [1.0 * (T / B)] and [0.1 * (T**0.5 / B**2)], and each is the divisor of
    its confinement time as computed, with no floor and no clamp in
    between. *)
Theorem reference_coefficients_unclamped
    (float_pow : float -> float -> result float)
    (T B E_harmonic S_local alpha_coeff beta_coeff gamma_coeff delta : float)
    (rT B2 : float) :
  (forall w, float_pow 1 w = Ok 1) ->
  (B =? 0) = false ->
  float_pow T 0.5 = Ok rT -> float_pow B 2 = Ok B2 ->
  (B2 =? 0) = false ->
  (1 * (T / B) =? 0) = false ->
  (0.1 * (rT / B2) =? 0) = false ->
  exists r : report,
    main float_pow T B E_harmonic S_local
      alpha_coeff beta_coeff gamma_coeff delta = Ok r
    /\ D_Bohm r = 1 * (T / B)
    /\ tau_E_bohm r = 1 / (1 * (T / B))
    /\ D_Neoclassical r = 0.1 * (rT / B2)
    /\ tau_E_neoclassical r = 1 / (0.1 * (rT / B2)).
Proof.
  intros Hone HB HrT HB2 HB20 Hb0 Hn0.
  destruct (main_returns float_pow Hone T B E_harmonic S_local
              alpha_coeff beta_coeff gamma_coeff delta rT B2
              HB HrT HB2 HB20 Hb0 Hn0) as [r Hr].
  exists r. split; [exact Hr | ].
  apply (main_Ok_inv float_pow Hone) in Hr
    as (rT' & B2' & _ & HrT' & HB2' & _ & _ & _ & _ & _ & Eb & Etb & En & Etn & _).
  rewrite HrT in HrT'. rewrite HB2 in HB2'.
  injection HrT' as <-. injection HB2' as <-.
  rewrite Etb, Etn, Eb, En. auto.
Qed.

(** A run in which both reference coefficients are below [1e-4] and are
    nevertheless the divisors of their confinement times. *)
Lemma reference_coefficients_unclamped_witness :
  exists r : report,
    main rounded_pow 0.001 100 1 0.5 1 1 1 0.01 = Ok r
    /\ (D_Bohm r <? 1e-4) = true
    /\ tau_E_bohm r = 1 / D_Bohm r
    /\ (D_Neoclassical r <? 1e-4) = true
    /\ tau_E_neoclassical r = 1 / D_Neoclassical r.
Proof.
  destruct (reference_coefficients_unclamped rounded_pow
              0.001 100 1 0.5 1 1 1 0.01 (PrimFloat.sqrt 0.001) (100 * 100)
              rounded_pow_one eq_refl eq_refl eq_refl eq_refl eq_refl eq_refl)
    as (r & Hr & Eb & Etb & En & Etn).
  exists r. split; [exact Hr | ].
  rewrite Etb, Etn, Eb, En. repeat split.
Defined.

(** C9.  In every run of [main], each comparison shows the "better than"
    message exactly when the UN-EX confinement time is strictly greater
    than the reference one; otherwise, and in particular when the two times
    are equal, it shows the "comparable to or worse than" message. *)
Theorem comparison_selects_banner
    (float_pow : float -> float -> result float)
    (T B E_harmonic S_local alpha_coeff beta_coeff gamma_coeff delta : float)
    (r : report) :
  (forall w, float_pow 1 w = Ok 1) ->
  main float_pow T B E_harmonic S_local
    alpha_coeff beta_coeff gamma_coeff delta = Ok r ->
  (bohm_banner r = success <-> (tau_E_bohm r <? tau_E_unex r) = true)
  /\ (bohm_banner r = info <-> (tau_E_bohm r <? tau_E_unex r) = false)
  /\ (neoclassical_banner r = success
      <-> (tau_E_neoclassical r <? tau_E_unex r) = true)
  /\ (neoclassical_banner r = info
      <-> (tau_E_neoclassical r <? tau_E_unex r) = false)
  /\ ((tau_E_unex r =? tau_E_bohm r) = true -> bohm_banner r = info)
  /\ ((tau_E_unex r =? tau_E_neoclassical r) = true
      -> neoclassical_banner r = info).
Proof.
  intros Hone Hr.
  apply (main_Ok_inv float_pow Hone) in Hr
    as (rT & B2 & _ & _ & _ & _ & _ & _ & _ & _ & _ & _ & _ & _ & Eb & En).
  rewrite Eb, En. unfold compare_banner.
  repeat split; intros H;
    try (apply eqb_not_ltb in H; rewrite H; reflexivity);
    revert H;
    try (destruct (tau_E_bohm r <? tau_E_unex r); congruence);
    destruct (tau_E_neoclassical r <? tau_E_unex r); congruence.
Qed.

Lemma comparison_selects_banner_witness :
  exists r : report,
    main rounded_pow 10 5 1 0.5 1 1 1 0.01 = Ok r
    /\ (tau_E_bohm r <? tau_E_unex r) = true
    /\ bohm_banner r = success
    /\ (tau_E_neoclassical r <? tau_E_unex r) = false
    /\ neoclassical_banner r = info.
Proof.
  eexists. split; [reflexivity | ].
  destruct (comparison_selects_banner rounded_pow 10 5 1 0.5 1 1 1 0.01 _
              rounded_pow_one eq_refl) as (Hb & _ & _ & Hn & _).
  split; [reflexivity | split; [apply Hb; reflexivity | ]].
  split; [reflexivity | apply Hn; reflexivity].
Defined.

(** Equal confinement times on slider values: the tie shows the
    "comparable to or worse than" message. *)
Example tie_shows_info :
  exists r : report,
    main rounded_pow 1 4.7 0.5 0.5 1 1 1 0.01 = Ok r
    /\ (tau_E_unex r =? tau_E_bohm r) = true
    /\ bohm_banner r = info.
Proof. eexists. repeat split. Qed.

(** ** Monotonicity of the diffusion coefficient *)

(** A returned coefficient that is a number is above zero. *)
Lemma max_floor_positive (d : float) :
  ordered (Py.max d min_diffusion_floor) ->
  (0 <? Py.max d min_diffusion_floor) = true.
Proof.
  intros H. apply leb_neq_ltb; [ | apply max_floor_not_zero].
  apply leb_trans with min_diffusion_floor; [reflexivity | ].
  apply max_ge_second; [ | exact ordered_floor].
  now apply ordered_max_inv in H.
Qed.

(** Strict monotonicity, as the claim has it, fails in binary64: at
    [T = 2.0, B = 1.0, E_h = 1.0, S_local = 0.0, alpha = 1.0, gamma = 0.0]
    the two values [0.5 < 0.5000000000000001] of [beta] give the same
    result [1.5], which is above the floor: [2.0 - 0.5000000000000001]
    rounds to [1.5]. *)
Lemma increase_of_beta_absorbed :
  (1 =? 0) = false /\ (0 <? 1) = true /\
  (0.5 <? 0.5000000000000001) = true /\
  calculate_unex_diffusion 2 1 1 0 1 0.5 0 0.01 = Ok 1.5 /\
  calculate_unex_diffusion 2 1 1 0 1 0.5000000000000001 0 0.01 = Ok 1.5 /\
  (1.5 <? 1.5) = false /\ (1e-4 <? 1.5) = true.
Proof. repeat (split; [reflexivity | ]). reflexivity. Qed.

(** C5, amended.  With [B] not zero the call returns
    [D = max(alpha * (T / B) - beta * E_h + gamma * max(0, S_local), 1e-4)],
    and, as long as the values compared are numbers (not NaN):
    increasing [beta] never increases [D] when [E_h > 0]; increasing
    [gamma] never decreases [D] when [S_local > 0]; increasing [alpha]
    never decreases [D] when [T / B > 0].  (The value may stay the same, at
    the floor or where rounding absorbs the change.) *)
Theorem diffusion_monotone (T B E_harmonic S_local : float) :
  (B =? 0) = false ->
  let D := fun alpha beta gamma : float =>
    Py.max (raw_diffusion T B E_harmonic S_local alpha beta gamma)
           min_diffusion_floor in
  (forall alpha beta gamma delta : float,
     calculate_unex_diffusion T B E_harmonic S_local alpha beta gamma delta
     = Ok (D alpha beta gamma))
  /\ (forall alpha gamma beta1 beta2 : float,
        (0 <? E_harmonic) = true -> (beta1 <? beta2) = true ->
        ordered (D alpha beta1 gamma) -> ordered (D alpha beta2 gamma) ->
        (D alpha beta2 gamma <=? D alpha beta1 gamma) = true)
  /\ (forall alpha beta gamma1 gamma2 : float,
        (0 <? S_local) = true -> (gamma1 <? gamma2) = true ->
        ordered (D alpha beta gamma1) -> ordered (D alpha beta gamma2) ->
        (D alpha beta gamma1 <=? D alpha beta gamma2) = true)
  /\ (forall beta gamma alpha1 alpha2 : float,
        (0 <? T / B) = true -> (alpha1 <? alpha2) = true ->
        ordered (D alpha1 beta gamma) -> ordered (D alpha2 beta gamma) ->
        (D alpha1 beta gamma <=? D alpha2 beta gamma) = true).
Proof.
  intros HB D. split; [ | split; [ | split]].
  - intros. now apply calculate_unex_diffusion_raw.
  - intros alpha gamma beta1 beta2 HE Hb O1 O2. unfold D in *.
    apply ordered_max_inv in O1, O2. apply ltb_leb in Hb.
    unfold raw_diffusion, linear_model in *.
    destruct (ordered_add_inv _ _ O1) as [O1s _].
    destruct (ordered_add_inv _ _ O2) as [O2s _].
    destruct (ordered_sub_inv _ _ O1s) as [_ O1m].
    destruct (ordered_sub_inv _ _ O2s) as [_ O2m].
    apply max_mono; [ | exact ordered_floor].
    apply add_mono_l; try assumption.
    apply sub_anti_r; try assumption.
    now apply mul_mono.
  - intros alpha beta gamma1 gamma2 HS Hg O1 O2. unfold D in *.
    apply ordered_max_inv in O1, O2. apply ltb_leb in Hg.
    unfold raw_diffusion, linear_model in *.
    assert (ES : Py.max 0 S_local = S_local)
      by (unfold Py.max; now rewrite HS).
    rewrite ES in *.
    destruct (ordered_add_inv _ _ O1) as [_ O1m].
    destruct (ordered_add_inv _ _ O2) as [_ O2m].
    apply max_mono; [ | exact ordered_floor].
    apply add_mono_r; try assumption.
    now apply mul_mono.
  - intros beta gamma alpha1 alpha2 HQ Ha O1 O2. unfold D in *.
    apply ordered_max_inv in O1, O2. apply ltb_leb in Ha.
    unfold raw_diffusion, linear_model in *.
    destruct (ordered_add_inv _ _ O1) as [O1s _].
    destruct (ordered_add_inv _ _ O2) as [O2s _].
    destruct (ordered_sub_inv _ _ O1s) as [O1m _].
    destruct (ordered_sub_inv _ _ O2s) as [O2m _].
    apply max_mono; [ | exact ordered_floor].
    apply add_mono_l; try assumption.
    apply sub_mono_l; try assumption.
    now apply mul_mono.
Qed.

Lemma diffusion_monotone_witness :
  (5 =? 0) = false /\ (0 <? 1) = true /\ (1 <? 2) = true /\
  calculate_unex_diffusion 10 5 1 0.5 1 1 1 0.01 = Ok 1.5 /\
  calculate_unex_diffusion 10 5 1 0.5 1 2 1 0.01 = Ok 0.5 /\
  (Py.max (raw_diffusion 10 5 1 0.5 1 2 1) min_diffusion_floor
   <=? Py.max (raw_diffusion 10 5 1 0.5 1 1 1) min_diffusion_floor) = true.
Proof.
  pose proof (diffusion_monotone 10 5 1 0.5 eq_refl) as H. cbv zeta in H.
  destruct H as (Hc & Hb & _).
  repeat (split; [reflexivity | ]).
  apply Hb; reflexivity.
Defined.

(** ** Comparisons of confinement times and of coefficients *)

(** The claimed equivalence fails in binary64, on slider values: with
    [T = 1.0, B = 4.7, E_h = 0.5, S_local = 0.5] and
    [alpha = beta = gamma = 1.0] the UN-EX coefficient is strictly smaller
    than the Bohm one (by one unit in the last place), yet both
    reciprocals round to [4.7]: the confinement times are equal and the
    "comparable to or worse than" message is shown. *)
Lemma smaller_coefficient_equal_time :
  exists r : report,
    main rounded_pow 1 4.7 0.5 0.5 1 1 1 0.01 = Ok r
    /\ (0 <? D_UNEX r) = true /\ (0 <? D_Bohm r) = true
    /\ (D_UNEX r <? D_Bohm r) = true
    /\ (tau_E_bohm r <? tau_E_unex r) = false
    /\ (tau_E_unex r =? tau_E_bohm r) = true
    /\ bohm_banner r = info.
Proof. eexists. repeat (split; [reflexivity | ]). reflexivity. Qed.

(** The comparison of two confinement times [1.0 / D], read on the
    coefficients. *)
Lemma reciprocal_comparison (Du Dr : float) :
  (0 <? Dr) = true ->
  ((1 / Dr <? 1 / Du) = true -> (Du <? Dr) = true)
  /\ ((Du <? Dr) = true -> (0 <? Du) = true ->
      (1 / Dr <=? 1 / Du) = true).
Proof.
  intros Hr. split.
  - intros H. destruct (Du <? Dr) eqn:E; [reflexivity | exfalso].
    assert (Ou : ordered Du).
    { pose proof (leb_ordered_r _ _ (ltb_leb _ _ H)) as O.
      now apply ordered_div_inv in O. }
    assert (Or : ordered Dr).
    { pose proof (ltb_ordered_l _ _ H) as O.
      now apply ordered_div_inv in O. }
    apply ltb_false_leb in E; try assumption.
    apply (div_one_anti _ _ Hr) in E.
    apply ltb_not_leb in H. congruence.
  - intros H Hu. apply ltb_leb in H. now apply div_one_anti.
Qed.

(** C10, amended.  In every run of [main] the three confinement times are
    [1.0 / D] for the same length [a = 1.0], so each comparison depends on
    the two coefficients only.  For a reference coefficient above zero:
    the "better than" message is shown only when [D_UNEX] is strictly
    smaller than the reference coefficient; and when [D_UNEX] is strictly
    smaller, the UN-EX confinement time is at least the reference one (the
    two may be equal after rounding, and then the other message is
    shown). *)
Theorem comparison_by_coefficients
    (float_pow : float -> float -> result float)
    (T B E_harmonic S_local alpha_coeff beta_coeff gamma_coeff delta : float)
    (r : report) :
  (forall w, float_pow 1 w = Ok 1) ->
  main float_pow T B E_harmonic S_local
    alpha_coeff beta_coeff gamma_coeff delta = Ok r ->
  tau_E_unex r = 1 / D_UNEX r
  /\ tau_E_bohm r = 1 / D_Bohm r
  /\ tau_E_neoclassical r = 1 / D_Neoclassical r
  /\ ((0 <? D_Bohm r) = true ->
      (bohm_banner r = success -> (D_UNEX r <? D_Bohm r) = true)
      /\ ((D_UNEX r <? D_Bohm r) = true ->
          (tau_E_bohm r <=? tau_E_unex r) = true))
  /\ ((0 <? D_Neoclassical r) = true ->
      (neoclassical_banner r = success ->
       (D_UNEX r <? D_Neoclassical r) = true)
      /\ ((D_UNEX r <? D_Neoclassical r) = true ->
          (tau_E_neoclassical r <=? tau_E_unex r) = true)).
Proof.
  intros Hone Hr.
  apply (main_Ok_inv float_pow Hone) in Hr
    as (rT & B2 & _ & _ & _ & _ & _ & _ & Eu & Etu & _ & Etb & _ & Etn
        & Eb & En).
  assert (Pu : forall Dr, (D_UNEX r <? Dr) = true -> (0 <? D_UNEX r) = true).
  { intros Dr H. apply ltb_ordered_l in H. rewrite Eu in *.
    now apply max_floor_positive. }
  repeat (split; [assumption | ]).
  rewrite Eb, En, Etu, Etb, Etn. unfold compare_banner.
  split; intros Hpos;
    destruct (reciprocal_comparison (D_UNEX r) _ Hpos) as [H1 H2];
    (split; [ | intros H; apply H2; [exact H | exact (Pu _ H)] ]).
  - destruct (1 / D_Bohm r <? 1 / D_UNEX r); [auto | discriminate].
  - destruct (1 / D_Neoclassical r <? 1 / D_UNEX r); [auto | discriminate].
Qed.

Lemma comparison_by_coefficients_witness :
  exists r : report,
    main rounded_pow 10 5 1 0.5 1 1 1 0.01 = Ok r
    /\ (0 <? D_Bohm r) = true
    /\ bohm_banner r = success
    /\ (D_UNEX r <? D_Bohm r) = true
    /\ (tau_E_bohm r <=? tau_E_unex r) = true.
Proof.
  eexists. split; [reflexivity | ].
  destruct (comparison_by_coefficients rounded_pow 10 5 1 0.5 1 1 1 0.01 _
              rounded_pow_one eq_refl) as (_ & _ & _ & Hb & _).
  destruct (Hb eq_refl) as [H1 H2].
  split; [reflexivity | split; [reflexivity | ]].
  split; [apply H1; reflexivity | apply H2; reflexivity].
Defined.

(** ** Further monotonicity facts: zero factors, quotients *)

Section RoundingMore.

Ltac sf_decide :=
  first
    [ reflexivity
    | discriminate
    | match goal with H : not_nan S754_nan |- _ => now elim H end
    | apply SFleb_pinf; assumption
    | apply SFleb_ninf; assumption
    | apply SFleb_refl; assumption ].

Lemma Rnd_not_nan (x : R) (z : spec_float) : Rnd x z -> not_nan z.
Proof.
  intros H E. subst z. destruct (Rnd_sign _ _ H) as [Hp Hn].
  destruct (Rle_lt_dec 0 x) as [L | L].
  - exact (Hp L).
  - apply Hn. lra.
Qed.

Lemma SFmul_comm (x y : spec_float) :
  SFmul prec emax x y = SFmul prec emax y x.
Proof.
  destruct x as [sx | sx | | sx mx ex], y as [sy | sy | | sy my ey];
    try reflexivity; cbn [SFmul]; rewrite ?(xorb_comm sx sy);
    try reflexivity.
  rewrite (Pos.mul_comm mx my), (Z.add_comm ex ey). reflexivity.
Qed.

Lemma SFleb_zero_ltb (y : spec_float) :
  SFleb (S754_zero false) y = true ->
  (exists s, y = S754_zero s) \/ SFltb (S754_zero false) y = true.
Proof.
  destruct y as [sy | sy | | sy my ey]; try discriminate; eauto;
    destruct sy; try discriminate; auto.
Qed.

(** Multiplication by a factor that is not below zero is monotone. *)
Lemma SFmul_mono0 (x1 x2 y : spec_float) :
  valid x1 -> valid x2 -> valid y ->
  SFleb x1 x2 = true -> SFleb (S754_zero false) y = true ->
  not_nan (SFmul prec emax x1 y) -> not_nan (SFmul prec emax x2 y) ->
  SFleb (SFmul prec emax x1 y) (SFmul prec emax x2 y) = true.
Proof.
  intros V1 V2 Vy H Hy N1 N2.
  destruct (SFleb_zero_ltb y Hy) as [[s ->] | Hy'];
    [ | now apply SFmul_mono].
  destruct x1 as [s1 | s1 | | s1 m1 e1], x2 as [s2 | s2 | | s2 m2 e2];
    cbn [SFmul] in N1, N2 |- *; try reflexivity;
    first [now elim N1 | now elim N2].
Qed.

(** The quotient of a real number by a finite float above zero. *)
Lemma SFdiv_Rnd (x : spec_float) (my : positive) (ey : Z) :
  is_real x ->
  Rnd (SF2R x / SF2R (S754_finite false my ey))
      (SFdiv prec emax x (S754_finite false my ey)).
Proof.
  destruct x as [sx | sx | | sx mx ex]; cbn [is_real]; try contradiction;
    intros _.
  - right. right. cbn [SF2R SFdiv]. split; [ | eauto].
    unfold Rdiv. ring.
  - apply SFdiv_finite_Rnd.
Qed.

(** Division by a float above zero is monotone in the dividend. *)
Lemma SFdiv_mono (x1 x2 y : spec_float) :
  valid x1 -> valid x2 -> valid y ->
  SFleb x1 x2 = true -> SFltb (S754_zero false) y = true ->
  not_nan (SFdiv prec emax x1 y) -> not_nan (SFdiv prec emax x2 y) ->
  SFleb (SFdiv prec emax x1 y) (SFdiv prec emax x2 y) = true.
Proof.
  intros V1 V2 Vy H Hy N1 N2.
  destruct y as [sy | sy | | sy my ey]; try discriminate;
    destruct sy; try discriminate.
  - destruct x1 as [s1 | s1 | | s1 m1 e1], x2 as [s2 | s2 | | s2 m2 e2];
      cbn [SFdiv] in N1, N2 |- *; try reflexivity;
      first [now elim N1 | now elim N2 | discriminate].
  - pose proof (finite_pos_val my ey) as Py.
    assert (Real : is_real x1 -> is_real x2 ->
                   SFleb (SFdiv prec emax x1 (S754_finite false my ey))
                         (SFdiv prec emax x2 (S754_finite false my ey)) = true).
    { intros R1 R2.
      apply (Rnd_mono (SF2R x1 / SF2R (S754_finite false my ey))
                      (SF2R x2 / SF2R (S754_finite false my ey)));
        try (now apply SFdiv_Rnd).
      apply SFleb_val in H; try assumption.
      cbn [SF2R]. unfold Rdiv. apply Rmult_le_compat_r; [ | exact H].
      apply Rlt_le, Rinv_0_lt_compat, Py. }
    destruct x1 as [s1 | s1 | | s1 m1 e1], x2 as [s2 | s2 | | s2 m2 e2];
      try (apply Real; exact I);
      try destruct s1; try destruct s2;
      cbn [SFdiv xorb] in N1, N2 |- *; sf_decide.
Qed.

(** Division of a dividend that is not below zero is antitone in a divisor
    above zero. *)
Lemma SFdiv_anti0 (x y1 y2 : spec_float) :
  valid x -> valid y1 -> valid y2 ->
  SFleb (S754_zero false) x = true ->
  SFltb (S754_zero false) y1 = true -> SFleb y1 y2 = true ->
  not_nan (SFdiv prec emax x y1) -> not_nan (SFdiv prec emax x y2) ->
  SFleb (SFdiv prec emax x y2) (SFdiv prec emax x y1) = true.
Proof.
  intros Vx V1 V2 Hx H1 H N1 N2.
  destruct x as [sx | sx | | sx mx ex]; try discriminate.
  - destruct y1 as [s1 | s1 | | s1 m1 e1]; try discriminate;
      destruct y2 as [s2 | s2 | | s2 m2 e2]; try discriminate;
      cbn [SFdiv] in N1, N2 |- *; try reflexivity;
      first [now elim N1 | now elim N2].
  - destruct sx; try discriminate.
    destruct y1 as [s1 | s1 | | s1 m1 e1]; try discriminate;
      destruct s1; try discriminate;
      destruct y2 as [s2 | s2 | | s2 m2 e2]; try discriminate;
      destruct s2; try discriminate;
      cbn [SFdiv xorb] in N1, N2 |- *; sf_decide.
  - destruct sx; try discriminate. now apply SFdiv_anti.
Qed.

(** A float between two real numbers is a real number. *)
Lemma SF_between_real (lo hi x : spec_float) :
  is_real lo -> is_real hi ->
  SFleb lo x = true -> SFleb x hi = true -> is_real x.
Proof.
  destruct x as [sx | sx | | sx mx ex]; cbn [is_real]; auto.
  - destruct lo as [sl | sl | | sl ml el], hi as [sh | sh | | sh mh eh];
      cbn [is_real]; try contradiction; intros _ _;
      destruct sx; try destruct sl; try destruct sh; discriminate.
  - destruct lo as [sl | sl | | sl ml el]; cbn [is_real]; try contradiction;
      discriminate.
Qed.

End RoundingMore.

(** ** Real-valued floats and intervals *)

(** A float that is a real number: neither NaN nor an infinity. *)
Definition real (x : float) : Prop := is_real (Prim2SF x).

Section PrimitiveMore.

Lemma is_real_not_nan (z : spec_float) : is_real z -> not_nan z.
Proof. destruct z; cbn [is_real]; intros H E; try discriminate; exact H. Qed.

Lemma real_ordered (x : float) : real x -> ordered x.
Proof. intros H. now apply Prim2SF_ordered, is_real_not_nan. Qed.

Lemma between_real (lo hi x : float) :
  real lo -> real hi -> within lo hi x -> real x.
Proof.
  unfold real, within. rewrite !FloatAxioms.leb_spec.
  intros Hl Hh [H1 H2]. exact (SF_between_real _ _ _ Hl Hh H1 H2).
Qed.

Lemma mul_mono_l0 (x1 x2 y : float) :
  (x1 <=? x2) = true -> (0 <=? y) = true ->
  ordered (x1 * y) -> ordered (x2 * y) ->
  (x1 * y <=? x2 * y) = true.
Proof.
  intros H Hy O1 O2. apply ordered_Prim2SF in O1, O2.
  rewrite FloatAxioms.leb_spec in *.
  rewrite !mul_spec in *. unfold SF64mul in *. rewrite Prim2SF_zero in Hy.
  apply SFmul_mono0; auto using valid_Prim2SF.
Qed.

Lemma mul_mono_r0 (x y1 y2 : float) :
  (y1 <=? y2) = true -> (0 <=? x) = true ->
  ordered (x * y1) -> ordered (x * y2) ->
  (x * y1 <=? x * y2) = true.
Proof.
  intros H Hx O1 O2. apply ordered_Prim2SF in O1, O2.
  rewrite FloatAxioms.leb_spec in *.
  rewrite !mul_spec in *. unfold SF64mul in *. rewrite Prim2SF_zero in Hx.
  rewrite (SFmul_comm (Prim2SF x) (Prim2SF y1)) in *.
  rewrite (SFmul_comm (Prim2SF x) (Prim2SF y2)) in *.
  apply SFmul_mono0; auto using valid_Prim2SF.
Qed.

Lemma div_mono_l (x1 x2 y : float) :
  (x1 <=? x2) = true -> (0 <? y) = true ->
  ordered (x1 / y) -> ordered (x2 / y) ->
  (x1 / y <=? x2 / y) = true.
Proof.
  intros H Hy O1 O2. apply ordered_Prim2SF in O1, O2.
  rewrite FloatAxioms.leb_spec in *. rewrite FloatAxioms.ltb_spec in Hy.
  rewrite !div_spec in *. unfold SF64div in *. rewrite Prim2SF_zero in Hy.
  apply SFdiv_mono; auto using valid_Prim2SF.
Qed.

Lemma div_anti_r (x y1 y2 : float) :
  (0 <=? x) = true -> (0 <? y1) = true -> (y1 <=? y2) = true ->
  ordered (x / y1) -> ordered (x / y2) ->
  (x / y2 <=? x / y1) = true.
Proof.
  intros Hx H1 H O1 O2. apply ordered_Prim2SF in O1, O2.
  rewrite FloatAxioms.leb_spec in *. rewrite FloatAxioms.ltb_spec in H1.
  rewrite !div_spec in *. unfold SF64div in *. rewrite Prim2SF_zero in *.
  apply SFdiv_anti0; auto using valid_Prim2SF.
Qed.

Lemma mul_real_ordered (x y : float) : real x -> real y -> ordered (x * y).
Proof.
  unfold real. intros Hx Hy. apply Prim2SF_ordered. rewrite mul_spec.
  apply (Rnd_not_nan (SF2R (Prim2SF x) * SF2R (Prim2SF y))).
  apply SFmul_Rnd; auto using valid_Prim2SF.
Qed.

Lemma add_real_ordered (x y : float) : real x -> real y -> ordered (x + y).
Proof.
  unfold real. intros Hx Hy. apply Prim2SF_ordered. rewrite add_spec.
  apply (Rnd_not_nan (SF2R (Prim2SF x) + SF2R (Prim2SF y))).
  apply SFadd_Rnd; auto using valid_Prim2SF.
Qed.

Lemma is_real_opp (z : spec_float) : is_real z -> is_real (SFopp z).
Proof. destruct z; auto. Qed.

Lemma sub_real_ordered (x y : float) : real x -> real y -> ordered (x - y).
Proof.
  unfold real. intros Hx Hy. apply Prim2SF_ordered. rewrite sub_spec.
  unfold SF64sub. rewrite SFsub_SFadd.
  apply (Rnd_not_nan (SF2R (Prim2SF x) + SF2R (SFopp (Prim2SF y)))).
  apply SFadd_Rnd; auto using valid_Prim2SF, valid_opp, is_real_opp.
Qed.

Lemma div_real_ordered (x y : float) :
  real x -> real y -> (0 <? y) = true -> ordered (x / y).
Proof.
  unfold real. intros Hx Hy H. apply Prim2SF_ordered. rewrite div_spec.
  unfold SF64div. rewrite FloatAxioms.ltb_spec, Prim2SF_zero in H.
  destruct (Prim2SF y) as [sy | sy | | sy my ey]; try discriminate;
    cbn [is_real] in Hy; try contradiction.
  destruct sy; try discriminate.
  exact (Rnd_not_nan _ _ (SFdiv_Rnd _ my ey Hx)).
Qed.

Lemma eqb_leb (x y : float) : (x =? y) = true -> (x <=? y) = true.
Proof.
  rewrite FloatAxioms.eqb_spec, FloatAxioms.leb_spec. unfold SFeqb, SFleb.
  destruct (SFcompare (Prim2SF x) (Prim2SF y)) as [[ | | ] | ]; congruence.
Qed.

Lemma ltb_leb_trans (x y z : float) :
  (x <? y) = true -> (y <=? z) = true -> (x <? z) = true.
Proof.
  intros H1 H2. apply leb_neq_ltb.
  - apply leb_trans with y; [now apply ltb_leb | exact H2].
  - destruct (z =? x) eqn:E; [exfalso | reflexivity].
    apply eqb_leb in E. pose proof (leb_trans _ _ _ H2 E) as L.
    apply ltb_not_leb in H1. congruence.
Qed.

Lemma leb_ltb_trans (x y z : float) :
  (x <=? y) = true -> (y <? z) = true -> (x <? z) = true.
Proof.
  intros H1 H2. apply leb_neq_ltb.
  - apply leb_trans with y; [exact H1 | now apply ltb_leb].
  - destruct (z =? x) eqn:E; [exfalso | reflexivity].
    apply eqb_leb in E. pose proof (leb_trans _ _ _ E H1) as L.
    apply ltb_not_leb in H2. congruence.
Qed.

(** [max(c, .)] is monotone. *)
Lemma max_mono_r (c x1 x2 : float) :
  (x1 <=? x2) = true -> ordered c ->
  (Py.max c x1 <=? Py.max c x2) = true.
Proof.
  intros H Hc.
  pose proof (leb_ordered_l _ _ H) as O1.
  pose proof (leb_ordered_r _ _ H) as O2.
  destruct (max_cases c x1) as [[L1 ->] | [L1 ->]];
    destruct (max_cases c x2) as [[L2 ->] | [L2 ->]].
  - exact H.
  - apply ltb_false_leb in L2; try assumption.
    now apply leb_trans with x2.
  - now apply ltb_leb.
  - now apply leb_refl.
Qed.

End PrimitiveMore.

(** ** Interval bounds through the operations *)

Ltac literal :=
  first [ reflexivity | exact I
        | (vm_compute; first [reflexivity | exact I]) ].

Lemma within_mul (a b c d x y : float) :
  real a -> real b -> real c -> real d ->
  (0 <=? a) = true -> (0 <=? c) = true ->
  within a b x -> within c d y -> within (a * c) (b * d) (x * y).
Proof.
  intros Ra Rb Rc Rd Ha Hc Hx Hy.
  pose proof (between_real _ _ _ Ra Rb Hx) as Rx.
  pose proof (between_real _ _ _ Rc Rd Hy) as Ry.
  destruct Hx as [Hx1 Hx2], Hy as [Hy1 Hy2].
  pose proof (leb_trans _ _ _ Ha Hx1) as Px.
  pose proof (leb_trans _ _ _ Hc Hy1) as Py.
  pose proof (leb_trans _ _ _ Px Hx2) as Pb.
  split.
  - apply leb_trans with (x * c).
    + apply mul_mono_l0; auto using mul_real_ordered.
    + apply mul_mono_r0; auto using mul_real_ordered.
  - apply leb_trans with (b * y).
    + apply mul_mono_l0; auto using mul_real_ordered.
    + apply mul_mono_r0; auto using mul_real_ordered.
Qed.

Lemma within_div (a b c d x y : float) :
  real a -> real b -> real c -> real d ->
  (0 <=? a) = true -> (0 <? c) = true ->
  within a b x -> within c d y -> within (a / d) (b / c) (x / y).
Proof.
  intros Ra Rb Rc Rd Ha Hc Hx Hy.
  pose proof (between_real _ _ _ Ra Rb Hx) as Rx.
  pose proof (between_real _ _ _ Rc Rd Hy) as Ry.
  destruct Hx as [Hx1 Hx2], Hy as [Hy1 Hy2].
  pose proof (leb_trans _ _ _ Ha Hx1) as Px.
  pose proof (leb_trans _ _ _ Px Hx2) as Pb.
  pose proof (ltb_leb_trans _ _ _ Hc Hy1) as Py.
  pose proof (ltb_leb_trans _ _ _ Py Hy2) as Pd.
  split.
  - apply leb_trans with (x / d).
    + apply div_mono_l; auto using div_real_ordered.
    + apply div_anti_r; auto using div_real_ordered.
  - apply leb_trans with (b / y).
    + apply div_mono_l; auto using div_real_ordered.
    + apply div_anti_r; auto using div_real_ordered.
Qed.

Lemma within_add (a b c d x y : float) :
  real a -> real b -> real c -> real d ->
  within a b x -> within c d y -> within (a + c) (b + d) (x + y).
Proof.
  intros Ra Rb Rc Rd Hx Hy.
  pose proof (between_real _ _ _ Ra Rb Hx) as Rx.
  pose proof (between_real _ _ _ Rc Rd Hy) as Ry.
  destruct Hx as [Hx1 Hx2], Hy as [Hy1 Hy2].
  split.
  - apply leb_trans with (x + c).
    + apply add_mono_l; auto using add_real_ordered.
    + apply add_mono_r; auto using add_real_ordered.
  - apply leb_trans with (b + y).
    + apply add_mono_l; auto using add_real_ordered.
    + apply add_mono_r; auto using add_real_ordered.
Qed.

Lemma within_sub (a b c d x y : float) :
  real a -> real b -> real c -> real d ->
  within a b x -> within c d y -> within (a - d) (b - c) (x - y).
Proof.
  intros Ra Rb Rc Rd Hx Hy.
  pose proof (between_real _ _ _ Ra Rb Hx) as Rx.
  pose proof (between_real _ _ _ Rc Rd Hy) as Ry.
  destruct Hx as [Hx1 Hx2], Hy as [Hy1 Hy2].
  split.
  - apply leb_trans with (x - d).
    + apply sub_mono_l; auto using sub_real_ordered.
    + apply sub_anti_r; auto using sub_real_ordered.
  - apply leb_trans with (b - y).
    + apply sub_mono_l; auto using sub_real_ordered.
    + apply sub_anti_r; auto using sub_real_ordered.
Qed.

Lemma within_max_l (c a b x : float) :
  ordered c -> within a b x ->
  within (Py.max c a) (Py.max c b) (Py.max c x).
Proof. intros Hc [H1 H2]. split; now apply max_mono_r. Qed.

Lemma within_max_r (c a b x : float) :
  ordered c -> within a b x ->
  within (Py.max a c) (Py.max b c) (Py.max x c).
Proof. intros Hc [H1 H2]. split; now apply max_mono. Qed.

Lemma within_positive (a b x : float) :
  (0 <? a) = true -> within a b x -> (0 <? x) = true /\ (x =? 0) = false.
Proof.
  intros Ha [H _]. pose proof (ltb_leb_trans _ _ _ Ha H) as P.
  split; [exact P | now apply ltb_neq].
Qed.

(** On slider readings the raw linear combination lies in
    [[-49.995, 1005]]. *)
Lemma raw_diffusion_on_sliders
    (T B E_harmonic S_local alpha_coeff beta_coeff gamma_coeff : float) :
  reading T_slider T -> reading B_slider B ->
  reading E_harmonic_slider E_harmonic -> reading S_local_slider S_local ->
  reading alpha_coeff_slider alpha_coeff ->
  reading beta_coeff_slider beta_coeff ->
  reading gamma_coeff_slider gamma_coeff ->
  within (0.1 * (1 / 20) - 5 * 10 + 0 * 0) 1005
    (raw_diffusion T B E_harmonic S_local alpha_coeff beta_coeff gamma_coeff).
Proof.
  unfold reading. cbn [min_value max_value T_slider B_slider E_harmonic_slider
    S_local_slider alpha_coeff_slider beta_coeff_slider gamma_coeff_slider].
  intros HT HB HE HS Ha Hb Hg.
  unfold raw_diffusion, linear_model.
  assert (Hq : within (1 / 20) (50 / 0.5) (T / B))
    by (apply within_div; try assumption; literal).
  assert (HS' : within 0 1 (Py.max 0 S_local))
    by (apply (within_max_l 0 0 1); [literal | assumption]).
  assert (H1 : within (0.1 * (1 / 20)) (10 * (50 / 0.5)) (alpha_coeff * (T / B)))
    by (apply within_mul; try assumption; literal).
  assert (H2 : within (0 * 0) (5 * 10) (beta_coeff * E_harmonic))
    by (apply within_mul; try assumption; literal).
  assert (H3 : within (0 * 0) (5 * 1) (gamma_coeff * Py.max 0 S_local))
    by (apply within_mul; try assumption; literal).
  assert (H4 : within (0.1 * (1 / 20) - 5 * 10) (10 * (50 / 0.5) - 0 * 0)
                 (alpha_coeff * (T / B) - beta_coeff * E_harmonic))
    by (apply within_sub; try assumption; literal).
  assert (H5 : within (0.1 * (1 / 20) - 5 * 10 + 0 * 0)
                        (10 * (50 / 0.5) - 0 * 0 + 5 * 1)
                 (alpha_coeff * (T / B) - beta_coeff * E_harmonic
                  + gamma_coeff * Py.max 0 S_local))
    by (apply within_add; try assumption; literal).
  exact H5.
Qed.

(** ** Zeros, signs and NaN in the operations *)

Section Zeros.

Lemma SFeqb_zero_inv (z : spec_float) :
  SFeqb z (S754_zero false) = true -> exists s, z = S754_zero s.
Proof.
  destruct z as [s | s | | s m e]; eauto; try discriminate;
    destruct s; discriminate.
Qed.

Lemma eqb_zero_inv (x : float) :
  (x =? 0) = true -> exists s, Prim2SF x = S754_zero s.
Proof.
  rewrite FloatAxioms.eqb_spec, Prim2SF_zero. apply SFeqb_zero_inv.
Qed.

Lemma Prim2SF_zero_eqb (x : float) (s : bool) :
  Prim2SF x = S754_zero s -> (x =? 0) = true.
Proof.
  intros E. rewrite FloatAxioms.eqb_spec, Prim2SF_zero, E. reflexivity.
Qed.

(** A zero divided by a number that is not a zero is a zero. *)
Lemma zero_div (x y : float) :
  (x =? 0) = true -> ordered y -> (y =? 0) = false -> (x / y =? 0) = true.
Proof.
  intros Hx Oy Hy. apply eqb_zero_inv in Hx as [s Hx].
  apply ordered_Prim2SF in Oy.
  rewrite FloatAxioms.eqb_spec, Prim2SF_zero in Hy.
  rewrite FloatAxioms.eqb_spec, div_spec, Prim2SF_zero. unfold SF64div.
  rewrite Hx.
  destruct (Prim2SF y) as [sy | sy | | sy my ey]; cbn [SFdiv];
    try reflexivity; [discriminate | now elim Oy].
Qed.

(** A product with a zero factor, when it is a number, is a zero. *)
Lemma mul_zero (x y : float) :
  (x =? 0) = true \/ (y =? 0) = true -> ordered (x * y) ->
  (x * y =? 0) = true.
Proof.
  intros H O. apply ordered_Prim2SF in O. rewrite mul_spec in O.
  rewrite FloatAxioms.eqb_spec, mul_spec, Prim2SF_zero. unfold SF64mul in *.
  destruct H as [H | H]; apply eqb_zero_inv in H as [s H]; rewrite H in *.
  - destruct (Prim2SF y) as [sy | sy | | sy my ey]; cbn [SFmul] in O |- *;
      try reflexivity; now elim O.
  - destruct (Prim2SF x) as [sx | sx | | sx mx ex]; cbn [SFmul] in O |- *;
      try reflexivity; now elim O.
Qed.

(** Subtracting a zero does not decrease a number. *)
Lemma sub_zero_ge (x z : float) :
  ordered x -> (z =? 0) = true -> (x <=? x - z) = true.
Proof.
  intros O Hz. apply ordered_Prim2SF in O. apply eqb_zero_inv in Hz as [s Hz].
  rewrite FloatAxioms.leb_spec, sub_spec. unfold SF64sub. rewrite Hz.
  destruct (Prim2SF x) as [sx | sx | | sx mx ex]; cbn [SFsub].
  - destruct sx, s; reflexivity.
  - now apply SFleb_refl.
  - now elim O.
  - now apply SFleb_refl.
Qed.

(** Adding a number that is not below zero does not decrease a number. *)
Lemma add_nonneg_ge (x y : float) :
  (0 <=? y) = true -> ordered (x + y) -> (x <=? x + y) = true.
Proof.
  intros Hy O. destruct (ordered_add_inv _ _ O) as [Ox _].
  assert (Z : (x <=? x + 0) = true /\ ordered (x + 0)).
  { apply ordered_Prim2SF in Ox. unfold ordered.
    rewrite FloatAxioms.leb_spec, FloatAxioms.eqb_spec, add_spec.
    unfold SF64add. rewrite Prim2SF_zero.
    destruct (Prim2SF x) as [sx | sx | | sx mx ex]; cbn [SFadd].
    - destruct sx; split; reflexivity.
    - split; [now apply SFleb_refl | destruct sx; reflexivity].
    - now elim Ox.
    - split; [now apply SFleb_refl | ].
      apply SFleb_refl in Ox. revert Ox. unfold SFleb, SFeqb.
      pose proof (SFcompare_swap (S754_finite sx mx ex)
                    (S754_finite sx mx ex)) as S.
      destruct (SFcompare (S754_finite sx mx ex) (S754_finite sx mx ex))
        as [[ | | ] | ]; cbn in S; congruence. }
  destruct Z as [Z1 Z2].
  apply leb_trans with (x + 0); [exact Z1 | ].
  now apply add_mono_r.
Qed.

Lemma SFmul_nonneg (x y : spec_float) :
  valid x -> valid y ->
  SFleb (S754_zero false) x = true -> SFleb (S754_zero false) y = true ->
  not_nan (SFmul prec emax x y) ->
  SFleb (S754_zero false) (SFmul prec emax x y) = true.
Proof.
  intros Vx Vy Hx Hy N.
  destruct x as [sx | sx | | sx mx ex]; try discriminate;
    destruct y as [sy | sy | | sy my ey]; try discriminate;
    try (destruct sx; try discriminate);
    try (destruct sy; try discriminate);
    cbn [SFmul xorb] in N |- *; try reflexivity; try (now elim N).
  apply (nonpos_le_nonneg (S754_zero false)); [exact I | ].
  apply (Rnd_sign _ _ (SFmul_finite_Rnd false false mx my ex ey Vx Vy)).
  cbn [SF2R]. pose proof (finite_pos_val mx ex).
  pose proof (finite_pos_val my ey). nra.
Qed.

(** A product of two numbers that are not below zero, when it is a number,
    is not below zero. *)
Lemma mul_nonneg (x y : float) :
  (0 <=? x) = true -> (0 <=? y) = true -> ordered (x * y) ->
  (0 <=? x * y) = true.
Proof.
  intros Hx Hy O. apply ordered_Prim2SF in O.
  rewrite FloatAxioms.leb_spec in *. rewrite mul_spec in *.
  unfold SF64mul in *. rewrite Prim2SF_zero in *.
  apply SFmul_nonneg; auto using valid_Prim2SF.
Qed.

(** Multiplying a number by [1.0] gives a number. *)
Lemma one_mul_ordered (y : float) : ordered y -> ordered (1 * y).
Proof.
  intros O. apply ordered_Prim2SF in O. apply Prim2SF_ordered.
  rewrite mul_spec. unfold SF64mul. pose proof (valid_Prim2SF 1) as V1.
  pose proof (valid_Prim2SF y) as Vy. rewrite Prim2SF_one in *.
  destruct (Prim2SF y) as [sy | sy | | sy my ey]; cbn [SFmul];
    try discriminate; [now elim O | ].
  exact (Rnd_not_nan _ _ (SFmul_finite_Rnd _ _ _ _ _ _ V1 Vy)).
Qed.

Lemma leb_not_ltb (x y : float) : (x <=? y) = true -> (y <? x) = false.
Proof.
  intros H. destruct (y <? x) eqn:E; [ | reflexivity].
  apply ltb_not_leb in E. congruence.
Qed.

Lemma ltb_ordered_r (x y : float) : (x <? y) = true -> ordered y.
Proof. intros H. exact (leb_ordered_r _ _ (ltb_leb _ _ H)). Qed.

Lemma leb_infinity (x : float) : ordered x -> (x <=? infinity) = true.
Proof.
  intros O. apply ordered_Prim2SF in O. rewrite FloatAxioms.leb_spec.
  replace (Prim2SF infinity) with (S754_infinity false)
    by (vm_compute; reflexivity).
  now apply SFleb_pinf.
Qed.

End Zeros.

(** ** [calculate_unex_diffusion] on slider readings *)

(** X1. On readings of the sliders of the page, the call returns a value, a
    real number between the floor [1e-4] and [1005]. *)
Theorem diffusion_on_slider_readings
    (T B E_harmonic S_local alpha_coeff beta_coeff gamma_coeff delta : float) :
  reading T_slider T -> reading B_slider B ->
  reading E_harmonic_slider E_harmonic -> reading S_local_slider S_local ->
  reading alpha_coeff_slider alpha_coeff ->
  reading beta_coeff_slider beta_coeff ->
  reading gamma_coeff_slider gamma_coeff ->
  exists d : float,
    calculate_unex_diffusion T B E_harmonic S_local
      alpha_coeff beta_coeff gamma_coeff delta = Ok d
    /\ within 1e-4 1005 d.
Proof.
  intros HT HB HE HS Ha Hb Hg.
  destruct (within_positive 0.5 20 B eq_refl HB) as [_ HB0].
  rewrite (calculate_unex_diffusion_raw _ _ _ _ _ _ _ _ HB0).
  eexists. split; [reflexivity | ].
  exact (within_max_r min_diffusion_floor _ _ _ ordered_floor
           (raw_diffusion_on_sliders _ _ _ _ _ _ _ HT HB HE HS Ha Hb Hg)).
Qed.

Lemma diffusion_on_slider_readings_witness :
  exists d : float,
    calculate_unex_diffusion 50 0.5 0 1 10 0 5 0.01 = Ok d
    /\ within 1e-4 1005 d.
Proof.
  apply diffusion_on_slider_readings; split; reflexivity.
Defined.

(** ** The divisions of [main] *)

(** X2. Whatever the arguments (NaN and infinities included), a value
    returned by [calculate_unex_diffusion] is never a zero, so the
    confinement time [(a**2) / D_UNEX] that [main] computes from it with
    [a = 1.0] never raises: it is [1.0 / D_UNEX]. *)
Theorem unex_time_never_raises
    (float_pow : float -> float -> result float)
    (T B E_harmonic S_local alpha_coeff beta_coeff gamma_coeff delta d : float) :
  (forall w, float_pow 1 w = Ok 1) ->
  calculate_unex_diffusion T B E_harmonic S_local
    alpha_coeff beta_coeff gamma_coeff delta = Ok d ->
  (d =? 0) = false /\ tau_E float_pow 1 d = Ok (1 / d).
Proof.
  intros Hone H. unfold calculate_unex_diffusion in H.
  apply bind_Ok_inv in H as [q [_ H]]. injection H as <-.
  split; [apply max_floor_not_zero | ].
  rewrite (tau_E_one float_pow Hone).
  apply float_truediv_ok, max_floor_not_zero.
Qed.

Lemma unex_time_never_raises_witness :
  (forall w, rounded_pow 1 w = Ok 1) /\
  calculate_unex_diffusion 1e308 1e-308 1e308 0 1 1e308 1 0.01 = Ok nan /\
  tau_E rounded_pow 1 nan = Ok (1 / nan).
Proof.
  split; [exact rounded_pow_one | split; [reflexivity | ]].
  exact (proj2 (unex_time_never_raises rounded_pow
                  1e308 1e-308 1e308 0 1 1e308 1 0.01 nan
                  rounded_pow_one eq_refl)).
Defined.

(** X3. For a temperature that is not negative, so that [T ** 0.5] is a
    float or raises and is never a complex number, [main] completes
    exactly when [B] is not zero, the two powers [T ** 0.5] and [B ** 2]
    return floats, and none of [B ** 2], [D_Bohm] and [D_Neoclassical] is
    a zero; [D_UNEX] is never the cause of a failure. *)
Theorem main_completes_iff
    (float_pow : float -> float -> result float)
    (T B E_harmonic S_local alpha_coeff beta_coeff gamma_coeff delta : float) :
  (forall w, float_pow 1 w = Ok 1) ->
  (T <? 0) = false ->
  (exists r : report,
     main float_pow T B E_harmonic S_local
       alpha_coeff beta_coeff gamma_coeff delta = Ok r)
  <->
  ((B =? 0) = false /\ (1 * (T / B) =? 0) = false /\
   exists rT B2 : float,
     float_pow T 0.5 = Ok rT /\ float_pow B 2 = Ok B2 /\
     (B2 =? 0) = false /\ (0.1 * (rT / B2) =? 0) = false).
Proof.
  intros Hone _. split.
  - intros [r Hr].
    apply (main_Ok_inv float_pow Hone) in Hr
      as (rT & B2 & HB & HrT & HB2 & HB20 & Hb0 & Hn0 & _ & _ & Eb & _
          & En & _).
    rewrite Eb in Hb0. rewrite En in Hn0.
    split; [exact HB | split; [exact Hb0 | ]].
    exists rT, B2. auto.
  - intros (HB & Hb0 & rT & B2 & HrT & HB2 & HB20 & Hn0).
    exact (main_returns float_pow Hone T B E_harmonic S_local
             alpha_coeff beta_coeff gamma_coeff delta rT B2
             HB HrT HB2 HB20 Hb0 Hn0).
Qed.

Lemma main_completes_iff_witness :
  exists r : report, main rounded_pow 10 5 1 0.5 1 1 1 0.01 = Ok r.
Proof.
  apply (main_completes_iff rounded_pow 10 5 1 0.5 1 1 1 0.01
           rounded_pow_one eq_refl).
  split; [reflexivity | split; [reflexivity | ]].
  exists (PrimFloat.sqrt 10), (5 * 5). repeat split.
Defined.

(** X4. With a temperature of zero and a field that is a number other than
    zero, [calculate_unex_diffusion] returns a value, but [main] raises
    [ZeroDivisionError]: the Bohm coefficient is a zero and nothing guards
    the division by it. *)
Theorem zero_temperature_raises
    (float_pow : float -> float -> result float)
    (T B E_harmonic S_local alpha_coeff beta_coeff gamma_coeff delta : float) :
  (forall w, float_pow 1 w = Ok 1) ->
  (T =? 0) = true -> ordered B -> (B =? 0) = false ->
  (exists d : float,
     calculate_unex_diffusion T B E_harmonic S_local
       alpha_coeff beta_coeff gamma_coeff delta = Ok d)
  /\ main float_pow T B E_harmonic S_local
       alpha_coeff beta_coeff gamma_coeff delta = Raise ZeroDivisionError.
Proof.
  intros Hone HT OB HB. split.
  - eexists. now apply calculate_unex_diffusion_raw.
  - assert (Hz : (1 * (T / B) =? 0) = true).
    { apply mul_zero; [right; now apply zero_div | ].
      apply mul_real_ordered; [exact I | ].
      destruct (eqb_zero_inv _ (zero_div T B HT OB HB)) as [s E].
      unfold real. rewrite E. exact I. }
    unfold main. cbv zeta.
    rewrite (calculate_unex_diffusion_raw _ _ _ _ _ _ _ _ HB).
    cbn [Py.bind].
    rewrite (tau_E_one float_pow Hone),
      (float_truediv_ok _ _ (max_floor_not_zero _)).
    cbn [Py.bind]. rewrite (float_truediv_ok _ _ HB). cbn [Py.bind].
    rewrite (tau_E_one float_pow Hone), (float_truediv_raise _ _ Hz).
    reflexivity.
Qed.

Lemma zero_temperature_raises_witness :
  calculate_unex_diffusion 0 5 1 0.5 1 1 1 0.01 = Ok 1e-4 /\
  main rounded_pow 0 5 1 0.5 1 1 1 0.01 = Raise ZeroDivisionError.
Proof.
  split; [reflexivity | ].
  exact (proj2 (zero_temperature_raises rounded_pow 0 5 1 0.5 1 1 1 0.01
                  rounded_pow_one eq_refl eq_refl eq_refl)).
Defined.

(** X5. In every run of [main] whose [D_UNEX] is a number, the UN-EX
    confinement time lies between [0] and [10000] seconds. *)
Theorem unex_time_bounded
    (float_pow : float -> float -> result float)
    (T B E_harmonic S_local alpha_coeff beta_coeff gamma_coeff delta : float)
    (r : report) :
  (forall w, float_pow 1 w = Ok 1) ->
  main float_pow T B E_harmonic S_local
    alpha_coeff beta_coeff gamma_coeff delta = Ok r ->
  ordered (D_UNEX r) ->
  within 0 10000 (tau_E_unex r).
Proof.
  intros Hone Hr O.
  apply (main_Ok_inv float_pow Hone) in Hr
    as (rT & B2 & _ & _ & _ & _ & _ & _ & Eu & Etu & _).
  rewrite Etu. rewrite Eu in *.
  pose proof (max_floor_positive _ O) as P.
  pose proof (ordered_max_inv _ _ O) as Oraw.
  split.
  - exact (div_one_anti _ infinity P (leb_infinity _ O)).
  - apply (div_one_anti min_diffusion_floor); [reflexivity | ].
    apply max_ge_second; [exact Oraw | exact ordered_floor].
Qed.

Lemma unex_time_bounded_witness :
  exists r : report,
    main rounded_pow 1 20 10 0 1 1 1 0.01 = Ok r
    /\ within 0 10000 (tau_E_unex r).
Proof.
  eexists. split; [reflexivity | ].
  exact (unex_time_bounded rounded_pow 1 20 10 0 1 1 1 0.01 _
           rounded_pow_one eq_refl eq_refl).
Defined.

(** ** NaN in the arguments of [calculate_unex_diffusion] *)

(** X6. The floor never masks a NaN argument: when the value returned is a
    number, each of [T], [B], [E_harmonic] and the three coefficients was a
    number. *)
Theorem numeric_result_numeric_arguments
    (T B E_harmonic S_local alpha_coeff beta_coeff gamma_coeff delta d : float) :
  calculate_unex_diffusion T B E_harmonic S_local
    alpha_coeff beta_coeff gamma_coeff delta = Ok d ->
  ordered d ->
  ordered T /\ ordered B /\ ordered E_harmonic /\
  ordered alpha_coeff /\ ordered beta_coeff /\ ordered gamma_coeff.
Proof.
  intros H O. unfold calculate_unex_diffusion in H.
  apply bind_Ok_inv in H as [q [Hq H]].
  apply float_truediv_Ok_inv in Hq as [_ ->]. injection H as <-.
  apply ordered_max_inv in O. unfold linear_model in O.
  destruct (ordered_add_inv _ _ O) as [Os Og].
  destruct (ordered_sub_inv _ _ Os) as [Oa Ob].
  destruct (ordered_mul_inv _ _ Oa) as [Oalpha Oq].
  destruct (ordered_div_inv _ _ Oq) as [OT OB].
  destruct (ordered_mul_inv _ _ Ob) as [Obeta OE].
  destruct (ordered_mul_inv _ _ Og) as [Ogamma _].
  repeat split; assumption.
Qed.

Lemma numeric_result_numeric_arguments_witness :
  calculate_unex_diffusion 10 5 1 0.5 1 1 1 0.01 = Ok 1.5 /\
  ordered 1.5 /\ ordered 10 /\ ordered 5.
Proof.
  split; [reflexivity | split; [reflexivity | ]].
  destruct (numeric_result_numeric_arguments 10 5 1 0.5 1 1 1 0.01 1.5
              eq_refl eq_refl) as (H1 & H2 & _).
  split; assumption.
Defined.

(** X7. An entropy reading that does not compare greater than zero -
    negative, a negative zero, minus infinity or NaN - gives the same
    outcome as the reading [0.0]: a NaN there is dropped by the clamp and
    never reaches the result. *)
Theorem entropy_not_positive_as_zero
    (T B E_harmonic S_local alpha_coeff beta_coeff gamma_coeff delta : float) :
  (0 <? S_local) = false ->
  calculate_unex_diffusion T B E_harmonic S_local
    alpha_coeff beta_coeff gamma_coeff delta
  = calculate_unex_diffusion T B E_harmonic 0
      alpha_coeff beta_coeff gamma_coeff delta.
Proof.
  intros H. unfold calculate_unex_diffusion, Py.max. rewrite H.
  reflexivity.
Qed.

Lemma entropy_not_positive_as_zero_witness :
  (0 <? nan) = false /\
  calculate_unex_diffusion 10 5 1 nan 1 1 1 0.01 = Ok 1 /\
  calculate_unex_diffusion 10 5 1 0 1 1 1 0.01 = Ok 1.
Proof.
  split; [reflexivity | split; [ | reflexivity]].
  rewrite (entropy_not_positive_as_zero 10 5 1 nan 1 1 1 0.01 eq_refl).
  reflexivity.
Defined.

(** ** Monotonicity in the plasma parameters *)

Ltac raw_terms O :=
  let Os := fresh "Os" in let Og := fresh "Og" in
  let Oa := fresh "Oa" in let Ob := fresh "Ob" in
  apply ordered_max_inv in O; unfold raw_diffusion, linear_model in O;
  destruct (ordered_add_inv _ _ O) as [Os Og];
  destruct (ordered_sub_inv _ _ Os) as [Oa Ob].

(** X8. With a field above zero and [alpha] not below zero, a higher
    temperature never gives a lower diffusion coefficient (as long as both
    values are numbers). *)
Theorem diffusion_monotone_in_temperature
    (T1 T2 B E_harmonic S_local alpha_coeff beta_coeff gamma_coeff delta : float) :
  (0 <? B) = true -> (0 <=? alpha_coeff) = true -> (T1 <=? T2) = true ->
  exists d1 d2 : float,
    calculate_unex_diffusion T1 B E_harmonic S_local
      alpha_coeff beta_coeff gamma_coeff delta = Ok d1
    /\ calculate_unex_diffusion T2 B E_harmonic S_local
         alpha_coeff beta_coeff gamma_coeff delta = Ok d2
    /\ (ordered d1 -> ordered d2 -> (d1 <=? d2) = true).
Proof.
  intros HB Ha HT. pose proof (ltb_neq _ _ HB) as HB0.
  rewrite !(calculate_unex_diffusion_raw _ _ _ _ _ _ _ _ HB0).
  eexists _, _. split; [reflexivity | split; [reflexivity | ]].
  intros O1 O2. raw_terms O1. raw_terms O2.
  apply max_mono; [ | exact ordered_floor].
  unfold raw_diffusion, linear_model.
  apply add_mono_l; try assumption.
  apply sub_mono_l; try assumption.
  apply mul_mono_r0; try assumption.
  apply div_mono_l; try assumption.
  - now apply ordered_mul_inv in Oa.
  - now apply ordered_mul_inv in Oa0.
Qed.

Lemma diffusion_monotone_in_temperature_witness :
  calculate_unex_diffusion 10 5 1 0.5 1 1 1 0.01 = Ok 1.5 /\
  calculate_unex_diffusion 20 5 1 0.5 1 1 1 0.01 = Ok 3.5 /\
  (1.5 <=? 3.5) = true.
Proof.
  destruct (diffusion_monotone_in_temperature 10 20 5 1 0.5 1 1 1 0.01
              eq_refl eq_refl eq_refl) as (d1 & d2 & H1 & H2 & H).
  assert (E1 : d1 = 1.5) by (vm_compute in H1; congruence).
  assert (E2 : d2 = 3.5) by (vm_compute in H2; congruence).
  subst d1 d2. split; [exact H1 | split; [exact H2 | ]].
  apply H; reflexivity.
Defined.

(** X9. With a temperature and [alpha] not below zero, a higher field
    (above zero) never gives a higher diffusion coefficient. *)
Theorem diffusion_antitone_in_field
    (T B1 B2 E_harmonic S_local alpha_coeff beta_coeff gamma_coeff delta : float) :
  (0 <=? T) = true -> (0 <=? alpha_coeff) = true ->
  (0 <? B1) = true -> (B1 <=? B2) = true ->
  exists d1 d2 : float,
    calculate_unex_diffusion T B1 E_harmonic S_local
      alpha_coeff beta_coeff gamma_coeff delta = Ok d1
    /\ calculate_unex_diffusion T B2 E_harmonic S_local
         alpha_coeff beta_coeff gamma_coeff delta = Ok d2
    /\ (ordered d1 -> ordered d2 -> (d2 <=? d1) = true).
Proof.
  intros HT Ha HB1 HB.
  pose proof (ltb_leb_trans _ _ _ HB1 HB) as HB2.
  rewrite (calculate_unex_diffusion_raw _ _ _ _ _ _ _ delta (ltb_neq _ _ HB1)).
  rewrite (calculate_unex_diffusion_raw _ _ _ _ _ _ _ delta (ltb_neq _ _ HB2)).
  eexists _, _. split; [reflexivity | split; [reflexivity | ]].
  intros O1 O2. raw_terms O1. raw_terms O2.
  apply max_mono; [ | exact ordered_floor].
  unfold raw_diffusion, linear_model.
  apply add_mono_l; try assumption.
  apply sub_mono_l; try assumption.
  apply mul_mono_r0; try assumption.
  apply div_anti_r; try assumption.
  - now apply ordered_mul_inv in Oa.
  - now apply ordered_mul_inv in Oa0.
Qed.

Lemma diffusion_antitone_in_field_witness :
  calculate_unex_diffusion 10 5 1 0.5 1 1 1 0.01 = Ok 1.5 /\
  calculate_unex_diffusion 10 10 1 0.5 1 1 1 0.01 = Ok 0.5 /\
  (0.5 <=? 1.5) = true.
Proof.
  destruct (diffusion_antitone_in_field 10 5 10 1 0.5 1 1 1 0.01
              eq_refl eq_refl eq_refl eq_refl) as (d1 & d2 & H1 & H2 & H).
  assert (E1 : d1 = 1.5) by (vm_compute in H1; congruence).
  assert (E2 : d2 = 0.5) by (vm_compute in H2; congruence).
  subst d1 d2. split; [exact H1 | split; [exact H2 | ]].
  apply H; reflexivity.
Defined.

(** X10. With [beta] not below zero, a higher harmonic feedback energy
    never gives a higher diffusion coefficient. *)
Theorem diffusion_antitone_in_feedback
    (T B E1 E2 S_local alpha_coeff beta_coeff gamma_coeff delta : float) :
  (B =? 0) = false -> (0 <=? beta_coeff) = true -> (E1 <=? E2) = true ->
  exists d1 d2 : float,
    calculate_unex_diffusion T B E1 S_local
      alpha_coeff beta_coeff gamma_coeff delta = Ok d1
    /\ calculate_unex_diffusion T B E2 S_local
         alpha_coeff beta_coeff gamma_coeff delta = Ok d2
    /\ (ordered d1 -> ordered d2 -> (d2 <=? d1) = true).
Proof.
  intros HB Hb HE.
  rewrite !(calculate_unex_diffusion_raw _ _ _ _ _ _ _ _ HB).
  eexists _, _. split; [reflexivity | split; [reflexivity | ]].
  intros O1 O2. raw_terms O1. raw_terms O2.
  apply max_mono; [ | exact ordered_floor].
  unfold raw_diffusion, linear_model.
  apply add_mono_l; try assumption.
  apply sub_anti_r; try assumption.
  now apply mul_mono_r0.
Qed.

Lemma diffusion_antitone_in_feedback_witness :
  calculate_unex_diffusion 10 5 1 0.5 1 1 1 0.01 = Ok 1.5 /\
  calculate_unex_diffusion 10 5 2 0.5 1 1 1 0.01 = Ok 0.5 /\
  (0.5 <=? 1.5) = true.
Proof.
  destruct (diffusion_antitone_in_feedback 10 5 1 2 0.5 1 1 1 0.01
              eq_refl eq_refl eq_refl) as (d1 & d2 & H1 & H2 & H).
  assert (E1 : d1 = 1.5) by (vm_compute in H1; congruence).
  assert (E2 : d2 = 0.5) by (vm_compute in H2; congruence).
  subst d1 d2. split; [exact H1 | split; [exact H2 | ]].
  apply H; reflexivity.
Defined.

(** X11. With [gamma] not below zero, a higher entropy reading never gives
    a lower diffusion coefficient. *)
Theorem diffusion_monotone_in_entropy
    (T B E_harmonic S1 S2 alpha_coeff beta_coeff gamma_coeff delta : float) :
  (B =? 0) = false -> (0 <=? gamma_coeff) = true -> (S1 <=? S2) = true ->
  exists d1 d2 : float,
    calculate_unex_diffusion T B E_harmonic S1
      alpha_coeff beta_coeff gamma_coeff delta = Ok d1
    /\ calculate_unex_diffusion T B E_harmonic S2
         alpha_coeff beta_coeff gamma_coeff delta = Ok d2
    /\ (ordered d1 -> ordered d2 -> (d1 <=? d2) = true).
Proof.
  intros HB Hg HS.
  rewrite !(calculate_unex_diffusion_raw _ _ _ _ _ _ _ _ HB).
  eexists _, _. split; [reflexivity | split; [reflexivity | ]].
  intros O1 O2. raw_terms O1. raw_terms O2.
  apply max_mono; [ | exact ordered_floor].
  unfold raw_diffusion, linear_model.
  apply add_mono_r; try assumption.
  apply mul_mono_r0; try assumption.
  apply max_mono_r; [exact HS | exact ordered_zero].
Qed.

Lemma diffusion_monotone_in_entropy_witness :
  calculate_unex_diffusion 10 5 1 0.5 1 1 1 0.01 = Ok 1.5 /\
  calculate_unex_diffusion 10 5 1 1 1 1 1 0.01 = Ok 2 /\
  (1.5 <=? 2) = true.
Proof.
  destruct (diffusion_monotone_in_entropy 10 5 1 0.5 1 1 1 1 0.01
              eq_refl eq_refl eq_refl) as (d1 & d2 & H1 & H2 & H).
  assert (E1 : d1 = 1.5) by (vm_compute in H1; congruence).
  assert (E2 : d2 = 2) by (vm_compute in H2; congruence).
  subst d1 d2. split; [exact H1 | split; [exact H2 | ]].
  apply H; reflexivity.
Defined.

(** ** What the banners of [main] can and cannot say *)

(** X12. Without a feedback term ([beta * E_harmonic] is a zero), with
    [alpha] at least [1.0] and [gamma] not below zero, the UN-EX
    coefficient is not below the Bohm one, and [main] never shows the
    "better than Bohm" message. *)
Theorem no_feedback_no_gain_over_bohm
    (float_pow : float -> float -> result float)
    (T B E_harmonic S_local alpha_coeff beta_coeff gamma_coeff delta : float)
    (r : report) :
  (forall w, float_pow 1 w = Ok 1) ->
  main float_pow T B E_harmonic S_local
    alpha_coeff beta_coeff gamma_coeff delta = Ok r ->
  (E_harmonic =? 0) = true \/ (beta_coeff =? 0) = true ->
  (1 <=? alpha_coeff) = true -> (0 <=? gamma_coeff) = true ->
  (0 <? T / B) = true -> ordered (D_UNEX r) ->
  (D_Bohm r <=? D_UNEX r) = true /\ bohm_banner r = info.
Proof.
  intros Hone Hr Hz Ha Hg Hq O.
  apply (main_Ok_inv float_pow Hone) in Hr
    as (rT & B2 & _ & _ & _ & _ & Hb0 & _ & Eu & Etu & Eb & Etb & _ & _
        & Ebb & _).
  rewrite Eu in O. pose proof (ordered_max_inv _ _ O) as Oraw.
  unfold raw_diffusion, linear_model in Oraw.
  destruct (ordered_add_inv _ _ Oraw) as [Os Og].
  destruct (ordered_sub_inv _ _ Os) as [Oa Ob].
  pose proof (ltb_leb _ _ Hq) as Hq0.
  pose proof (ltb_ordered_r _ _ Hq) as Oq.
  pose proof (one_mul_ordered _ Oq) as O1.
  assert (L : (D_Bohm r <=? D_UNEX r) = true).
  { rewrite Eb, Eu. unfold raw_diffusion, linear_model.
    apply leb_trans with (alpha_coeff * (T / B));
      [now apply mul_mono_l0 | ].
    apply leb_trans with (alpha_coeff * (T / B) - beta_coeff * E_harmonic).
    { apply sub_zero_ge; [exact Oa | ].
      apply mul_zero; [tauto | exact Ob]. }
    apply leb_trans
      with (alpha_coeff * (T / B) - beta_coeff * E_harmonic
            + gamma_coeff * Py.max 0 S_local).
    { apply add_nonneg_ge; [ | exact Oraw].
      apply mul_nonneg; [exact Hg | | exact Og].
      apply max_ge_first, ordered_zero. }
    now apply max_ge_first. }
  split; [exact L | ].
  assert (P : (0 <? D_Bohm r) = true).
  { apply leb_neq_ltb; [ | exact Hb0]. rewrite Eb.
    apply mul_nonneg; [reflexivity | exact Hq0 | exact O1]. }
  rewrite Ebb, Etu, Etb. unfold compare_banner.
  now rewrite (leb_not_ltb _ _ (div_one_anti _ _ P L)).
Qed.

Lemma no_feedback_no_gain_over_bohm_witness :
  exists r : report,
    main rounded_pow 10 5 0 0.5 1 1 1 0.01 = Ok r
    /\ (D_Bohm r <=? D_UNEX r) = true /\ bohm_banner r = info.
Proof.
  eexists. split; [reflexivity | ].
  exact (no_feedback_no_gain_over_bohm rounded_pow 10 5 0 0.5 1 1 1 0.01 _
           rounded_pow_one eq_refl (or_introl eq_refl)
           eq_refl eq_refl eq_refl eq_refl).
Defined.

(** X13. When the Neoclassical coefficient is above zero and not above the
    Bohm one, a run that shows "better than Neoclassical" also shows
    "better than Bohm". *)
Theorem better_than_neoclassical_better_than_bohm
    (float_pow : float -> float -> result float)
    (T B E_harmonic S_local alpha_coeff beta_coeff gamma_coeff delta : float)
    (r : report) :
  (forall w, float_pow 1 w = Ok 1) ->
  main float_pow T B E_harmonic S_local
    alpha_coeff beta_coeff gamma_coeff delta = Ok r ->
  (0 <? D_Neoclassical r) = true ->
  (D_Neoclassical r <=? D_Bohm r) = true ->
  neoclassical_banner r = success -> bohm_banner r = success.
Proof.
  intros Hone Hr P L.
  apply (main_Ok_inv float_pow Hone) in Hr
    as (rT & B2 & _ & _ & _ & _ & _ & _ & _ & _ & _ & Etb & _ & Etn
        & Ebb & Enb).
  rewrite Ebb, Enb. unfold compare_banner.
  destruct (tau_E_neoclassical r <? tau_E_unex r) eqn:E; [ | discriminate].
  intros _.
  assert (Lt : (tau_E_bohm r <=? tau_E_neoclassical r) = true)
    by (rewrite Etb, Etn; now apply div_one_anti).
  now rewrite (leb_ltb_trans _ _ _ Lt E).
Qed.

Lemma better_than_neoclassical_better_than_bohm_witness :
  exists r : report,
    main rounded_pow 10 5 5 0.5 1 1 1 0.01 = Ok r
    /\ neoclassical_banner r = success /\ bohm_banner r = success.
Proof.
  eexists. split; [reflexivity | ]. split; [reflexivity | ].
  exact (better_than_neoclassical_better_than_bohm
           rounded_pow 10 5 5 0.5 1 1 1 0.01 _
           rounded_pow_one eq_refl eq_refl eq_refl eq_refl).
Defined.

(** X14. A run shows a "better than" message only when both coefficients
    compared are numbers: with a NaN coefficient on either side the
    message is "comparable to or worse than". *)
Theorem better_than_needs_numbers
    (float_pow : float -> float -> result float)
    (T B E_harmonic S_local alpha_coeff beta_coeff gamma_coeff delta : float)
    (r : report) :
  (forall w, float_pow 1 w = Ok 1) ->
  main float_pow T B E_harmonic S_local
    alpha_coeff beta_coeff gamma_coeff delta = Ok r ->
  (bohm_banner r = success -> ordered (D_UNEX r) /\ ordered (D_Bohm r))
  /\ (neoclassical_banner r = success ->
      ordered (D_UNEX r) /\ ordered (D_Neoclassical r)).
Proof.
  intros Hone Hr.
  apply (main_Ok_inv float_pow Hone) in Hr
    as (rT & B2 & _ & _ & _ & _ & _ & _ & _ & Etu & _ & Etb & _ & Etn
        & Ebb & Enb).
  rewrite Ebb, Enb, Etu, Etb, Etn. unfold compare_banner.
  split.
  - destruct (1 / D_Bohm r <? 1 / D_UNEX r) eqn:E; [ | discriminate].
    intros _. split.
    + now apply ltb_ordered_r, ordered_div_inv in E.
    + now apply ltb_ordered_l, ordered_div_inv in E.
  - destruct (1 / D_Neoclassical r <? 1 / D_UNEX r) eqn:E; [ | discriminate].
    intros _. split.
    + now apply ltb_ordered_r, ordered_div_inv in E.
    + now apply ltb_ordered_l, ordered_div_inv in E.
Qed.

Lemma better_than_needs_numbers_witness :
  exists r : report,
    main rounded_pow 10 5 1 0.5 1 1 1 0.01 = Ok r
    /\ bohm_banner r = success
    /\ ordered (D_UNEX r) /\ ordered (D_Bohm r).
Proof.
  eexists. split; [reflexivity | ]. split; [reflexivity | ].
  exact (proj1 (better_than_needs_numbers rounded_pow
                  10 5 1 0.5 1 1 1 0.01 _ rounded_pow_one eq_refl)
               eq_refl).
Defined.

(** A run whose UN-EX coefficient is NaN: both messages are "comparable to
    or worse than". *)
Example nan_coefficient_shows_info :
  exists r : report,
    main rounded_pow 1e308 1e-5 1e308 0 1 1e308 1 0.01 = Ok r
    /\ is_nan (D_UNEX r) = true
    /\ bohm_banner r = info /\ neoclassical_banner r = info.
Proof. eexists. repeat split. Qed.

(** ** [main] on slider readings *)

Lemma within_inv (a b x : float) :
  real a -> real b -> (0 <? a) = true ->
  within a b x -> within (1 / b) (1 / a) (1 / x).
Proof.
  intros Ra Rb Ha Hx.
  apply (within_div 1 1 a b 1 x); try assumption; try literal.
  split; reflexivity.
Qed.

Lemma bohm_on_sliders (T B : float) :
  reading T_slider T -> reading B_slider B ->
  within 0.05 100 (1 * (T / B)).
Proof.
  unfold reading. cbn [min_value max_value T_slider B_slider].
  intros HT HB.
  assert (Hq : within (1 / 20) (50 / 0.5) (T / B))
    by (apply within_div; try assumption; literal).
  assert (H : within (1 * (1 / 20)) (1 * (50 / 0.5)) (1 * (T / B))).
  { apply within_mul; try assumption; try literal. split; reflexivity. }
  exact H.
Qed.

(** X15. In every run of [main] on slider readings, the UN-EX coefficient
    lies in [[1e-4, 1005]] and its confinement time in [[1/1005, 10000]];
    the Bohm coefficient lies in [[0.05, 100]] and its confinement time in
    [[0.01, 20]]. *)
Theorem main_on_slider_readings
    (float_pow : float -> float -> result float)
    (T B E_harmonic S_local alpha_coeff beta_coeff gamma_coeff delta : float)
    (r : report) :
  (forall w, float_pow 1 w = Ok 1) ->
  main float_pow T B E_harmonic S_local
    alpha_coeff beta_coeff gamma_coeff delta = Ok r ->
  reading T_slider T -> reading B_slider B ->
  reading E_harmonic_slider E_harmonic -> reading S_local_slider S_local ->
  reading alpha_coeff_slider alpha_coeff ->
  reading beta_coeff_slider beta_coeff ->
  reading gamma_coeff_slider gamma_coeff ->
  within 1e-4 1005 (D_UNEX r)
  /\ within (1 / 1005) 10000 (tau_E_unex r)
  /\ within 0.05 100 (D_Bohm r)
  /\ within 0.01 20 (tau_E_bohm r).
Proof.
  intros Hone Hr HT HB HE HS Ha Hb Hg.
  apply (main_Ok_inv float_pow Hone) in Hr
    as (rT & B2 & _ & _ & _ & _ & _ & _ & Eu & Etu & Eb & Etb & _).
  assert (Hu : within 1e-4 1005 (D_UNEX r)).
  { rewrite Eu.
    exact (within_max_r min_diffusion_floor _ _ _ ordered_floor
             (raw_diffusion_on_sliders _ _ _ _ _ _ _ HT HB HE HS Ha Hb Hg)). }
  assert (Hbo : within 0.05 100 (D_Bohm r))
    by (rewrite Eb; now apply bohm_on_sliders).
  split; [exact Hu | split; [ | split; [exact Hbo | ]]].
  - rewrite Etu.
    exact (within_inv 1e-4 1005 _ ltac:(literal) ltac:(literal) eq_refl Hu).
  - rewrite Etb.
    exact (within_inv 0.05 100 _ ltac:(literal) ltac:(literal) eq_refl Hbo).
Qed.

Lemma main_on_slider_readings_witness :
  exists r : report,
    main rounded_pow 50 0.5 0 1 10 0 5 0.01 = Ok r
    /\ within 1e-4 1005 (D_UNEX r)
    /\ within (1 / 1005) 10000 (tau_E_unex r)
    /\ within 0.05 100 (D_Bohm r)
    /\ within 0.01 20 (tau_E_bohm r).
Proof.
  eexists. split; [reflexivity | ].
  apply (main_on_slider_readings rounded_pow 50 0.5 0 1 10 0 5 0.01 _
           rounded_pow_one eq_refl); split; reflexivity.
Defined.

(** X16. On slider readings [main] completes, with a Neoclassical
    coefficient in [[0.00025, 3.2]] and a Neoclassical confinement time in
    [[0.3125, 4000]], as soon as the two powers return values in ranges
    that contain the exact ones: [T ** 0.5] in [[1, 8]] and [B ** 2] in
    [[0.25, 400]]. *)
Theorem main_completes_on_slider_readings
    (float_pow : float -> float -> result float)
    (T B E_harmonic S_local alpha_coeff beta_coeff gamma_coeff delta : float)
    (rT B2 : float) :
  (forall w, float_pow 1 w = Ok 1) ->
  reading T_slider T -> reading B_slider B ->
  float_pow T 0.5 = Ok rT -> within 1 8 rT ->
  float_pow B 2 = Ok B2 -> within 0.25 400 B2 ->
  exists r : report,
    main float_pow T B E_harmonic S_local
      alpha_coeff beta_coeff gamma_coeff delta = Ok r
    /\ within 0.00025 3.2 (D_Neoclassical r)
    /\ within 0.3125 4000 (tau_E_neoclassical r).
Proof.
  intros Hone HT HB HrT WrT HB2 WB2.
  assert (Hq : within (1 / 400) (8 / 0.25) (rT / B2))
    by (apply within_div; try assumption; literal).
  assert (Hn : within 0.00025 3.2 (0.1 * (rT / B2))).
  { apply (within_mul 0.1 0.1 (1 / 400) (8 / 0.25)); try assumption;
      try literal. split; reflexivity. }
  destruct (within_positive 0.5 20 B eq_refl HB) as [_ HB0].
  destruct (within_positive 0.25 400 B2 eq_refl WB2) as [_ HB20].
  destruct (within_positive 0.05 100 _ eq_refl (bohm_on_sliders T B HT HB))
    as [_ Hb0].
  destruct (within_positive 0.00025 3.2 _ eq_refl Hn) as [_ Hn0].
  destruct (main_returns float_pow Hone T B E_harmonic S_local
              alpha_coeff beta_coeff gamma_coeff delta rT B2
              HB0 HrT HB2 HB20 Hb0 Hn0) as [r Hr].
  exists r. split; [exact Hr | ].
  apply (main_Ok_inv float_pow Hone) in Hr
    as (rT' & B2' & _ & HrT' & HB2' & _ & _ & _ & _ & _ & _ & _ & En & Etn
        & _).
  rewrite HrT in HrT'. rewrite HB2 in HB2'.
  injection HrT' as <-. injection HB2' as <-.
  rewrite Etn, En. split; [exact Hn | ].
  exact (within_inv 0.00025 3.2 _ ltac:(literal) ltac:(literal) eq_refl Hn).
Qed.

Lemma main_completes_on_slider_readings_witness :
  exists r : report,
    main rounded_pow 10 5 1 0.5 1 1 1 0.01 = Ok r
    /\ within 0.00025 3.2 (D_Neoclassical r)
    /\ within 0.3125 4000 (tau_E_neoclassical r).
Proof.
  apply (main_completes_on_slider_readings rounded_pow
           10 5 1 0.5 1 1 1 0.01 (PrimFloat.sqrt 10) (5 * 5)
           rounded_pow_one); try reflexivity; split; reflexivity.
Defined.
